(** * ReStackTrie: the streaming Merkle-Patricia builder of trie/stacktrie.go

    A shallow embedding of [ReStackTrie] (insert, the two leaf/extension
    encoders, the node hasher and the public facade) together with the
    properties of its specification that can be decided on it. *)

From Stdlib Require Import String ZArith List Bool Lia Arith.
Import ListNotations.

Local Open Scope Z_scope.

(** ** Go runtime: results, bytes, arrays and slices *)

(** The two ways a Go call can stop without returning: a [panic(...)]
    written in the source, carrying its message, and a run-time error raised
    by the language itself. *)
Inductive RuntimeError : Type :=
| IndexOutOfRange
| SliceBoundsOutOfRange
| NilDereference.

Inductive result (A : Type) : Type :=
| Ok (a : A)
| Panic (msg : string)
| RuntimePanic (e : RuntimeError).

Arguments Ok {A} a.
Arguments Panic {A} msg.
Arguments RuntimePanic {A} e.

Definition bind {A B : Type} (m : result A) (f : A -> result B) : result B :=
  match m with
  | Ok a => f a
  | Panic msg => Panic msg
  | RuntimePanic e => RuntimePanic e
  end.

Notation "x <- m ;; k" := (bind m (fun x => k))
  (at level 61, m at next level, right associativity).
Notation "' p <- m ;; k" := (bind m (fun x => let p := x in k))
  (at level 61, p pattern, m at next level, right associativity).

(** A byte is a [Z] in [0, 256); [byte_of] is Go's conversion [byte(n)]. *)
Definition byte_of (n : Z) : Z := n mod 256.

Definition len {A : Type} (l : list A) : Z := Z.of_nat (length l).

(** [a[i]] for a read. *)
Definition index {A : Type} (a : list A) (i : Z) : result A :=
  if i <? 0 then RuntimePanic IndexOutOfRange
  else match nth_error a (Z.to_nat i) with
       | Some x => Ok x
       | None => RuntimePanic IndexOutOfRange
       end.

Fixpoint set_nth {A : Type} (a : list A) (n : nat) (v : A) : list A :=
  match a, n with
  | [], _ => []
  | _ :: r, O => v :: r
  | x :: r, S n' => x :: set_nth r n' v
  end.

(** [a[i] = v]. *)
Definition store {A : Type} (a : list A) (i : Z) (v : A) : result (list A) :=
  if (i <? 0) || (len a <=? i) then RuntimePanic IndexOutOfRange
  else Ok (set_nth a (Z.to_nat i) v).

(** [a[lo:]] and [a[lo:hi]] on a slice or array of full capacity. *)
Definition slice_from {A : Type} (a : list A) (lo : Z) : result (list A) :=
  if (lo <? 0) || (len a <? lo) then RuntimePanic SliceBoundsOutOfRange
  else Ok (skipn (Z.to_nat lo) a).

Definition slice {A : Type} (a : list A) (lo hi : Z) : result (list A) :=
  if (lo <? 0) || (hi <? lo) || (len a <? hi) then RuntimePanic SliceBoundsOutOfRange
  else Ok (firstn (Z.to_nat (hi - lo)) (skipn (Z.to_nat lo) a)).

(** [copy(a[lo:hi'], src)]: the builtin copies [min(len dst, len src)]
    elements; [copy_at a lo n src] is the array after copying into the
    window of [n] elements that starts at [lo]. *)
Definition copy_at {A : Type} (a : list A) (lo : nat) (n : nat) (src : list A) : list A :=
  let k := Nat.min n (length src) in
  firstn lo a ++ firstn k src ++ skipn (lo + k) a.

Definition zeros (n : nat) : list Z := repeat 0 n.

(** ** Keccak-256 *)

Module Keccak.

(** The hasher of golang.org/x/crypto/sha3 is not among the sources.
    [NewLegacyKeccak256] is the Keccak-256 sponge of the Ethereum dialect:
    Keccak-f[1600], rate 136 bytes, padding byte 0x01, 32 bytes of output.
    Lanes are 64-bit values held in [Z], the state is the list of its 25
    lanes in the order [x + 5*y]. *)

(** Modelled from the spec: the mask of a 64-bit lane of Keccak-f[1600]. *)
Definition mask64 : Z := 2 ^ 64 - 1.

(** Modelled from the spec: rotation of a lane to the left. *)
Definition rotl (w : Z) (n : Z) : Z :=
  Z.lor (Z.land (Z.shiftl w n) mask64) (Z.shiftr w (64 - n)).

(** Modelled from the spec: the lane at column [x] and row [y]. *)
Definition lane (s : list Z) (x y : nat) : Z :=
  nth ((x mod 5) + 5 * (y mod 5))%nat s 0.

(** Modelled from the spec: the 24 round constants of Keccak-f[1600]. *)
Definition round_constants : list Z :=
  [ 0x0000000000000001; 0x0000000000008082; 0x800000000000808A;
    0x8000000080008000; 0x000000000000808B; 0x0000000080000001;
    0x8000000080008081; 0x8000000000008009; 0x000000000000008A;
    0x0000000000000088; 0x0000000080008009; 0x000000008000000A;
    0x000000008000808B; 0x800000000000008B; 0x8000000000008089;
    0x8000000000008003; 0x8000000000008002; 0x8000000000000080;
    0x000000000000800A; 0x800000008000000A; 0x8000000080008081;
    0x8000000000008080; 0x0000000080000001; 0x8000000080008008 ].

(** Modelled from the spec: the rotation offsets, indexed [x + 5*y]. *)
Definition rotation_offsets : list Z :=
  [  0;  1; 62; 28; 27;
    36; 44;  6; 55; 20;
     3; 10; 43; 25; 39;
    41; 45; 15; 21;  8;
    18;  2; 61; 56; 14 ].

(** Modelled from the spec: the positions of the state, row by row. *)
Definition coords : list (nat * nat) :=
  flat_map (fun y => map (fun x => (x, y)) [0; 1; 2; 3; 4]%nat) [0; 1; 2; 3; 4]%nat.

(** Modelled from the spec: the step theta of a round. *)
Definition theta (s : list Z) : list Z :=
  let c := fun x => fold_left Z.lxor (map (fun y => lane s x y) [0; 1; 2; 3; 4]%nat) 0 in
  let cs := map c [0; 1; 2; 3; 4]%nat in
  let cx := fun x => nth (x mod 5)%nat cs 0 in
  let d := fun x => Z.lxor (cx (x + 4)%nat) (rotl (cx (x + 1)%nat) 1) in
  map (fun '(x, y) => Z.lxor (lane s x y) (d x)) coords.

(** Modelled from the spec: the steps rho and pi together,
    [B[y][2x+3y] = rot(A[x][y], r[x][y])]; read backwards, the lane at [(X, Y)] comes from [x = (X + 3Y) mod 5, y = X]. *)
Definition rho_pi (s : list Z) : list Z :=
  map (fun '(X, Y) =>
         let x := ((X + 3 * Y) mod 5)%nat in
         let y := X in
         rotl (lane s x y) (nth (x + 5 * y)%nat rotation_offsets 0)) coords.

(** Modelled from the spec: the step chi of a round. *)
Definition chi (s : list Z) : list Z :=
  map (fun '(x, y) =>
         Z.lxor (lane s x y)
                (Z.land (Z.lxor (lane s (x + 1) y) mask64) (lane s (x + 2) y))) coords.

(** Modelled from the spec: the step iota of a round. *)
Definition iota (rc : Z) (s : list Z) : list Z :=
  match s with
  | [] => []
  | a :: r => Z.lxor a rc :: r
  end.

(** Modelled from the spec: one round, and the permutation of 24 rounds. *)
Definition round (s : list Z) (rc : Z) : list Z := iota rc (chi (rho_pi (theta s))).

Definition keccak_f (s : list Z) : list Z := fold_left round round_constants s.

(** Modelled from the spec: the rate of Keccak-256 in bytes. *)
Definition rate : nat := 136.

(** Modelled from the spec: a little-endian lane from 8 bytes, and back. *)
Definition lane_of_bytes (bs : list Z) : Z :=
  fold_right (fun b acc => b + 256 * acc) 0 bs.

Definition bytes_of_lane (w : Z) : list Z :=
  map (fun i => Z.land (Z.shiftr w (8 * Z.of_nat i)) 255) (seq 0 8).

(** Modelled from the spec: the lanes of a block of the rate. *)
Fixpoint lanes_of_block (n : nat) (bs : list Z) : list Z :=
  match n with
  | O => []
  | S n' => lane_of_bytes (firstn 8 bs) :: lanes_of_block n' (skipn 8 bs)
  end.

(** Modelled from the spec: a block xor-ed into the head of the state. *)
Fixpoint xor_lanes (s blk : list Z) : list Z :=
  match s, blk with
  | a :: s', b :: blk' => Z.lxor a b :: xor_lanes s' blk'
  | _, _ => s
  end.

(** Modelled from the spec: one block absorbed. *)
Definition absorb_block (s : list Z) (blk : list Z) : list Z :=
  keccak_f (xor_lanes s (lanes_of_block 17 blk)).

(** Modelled from the spec: the multi-rate padding with the legacy domain
    byte, 0x01, zeros, and 0x80 or-ed into the last byte of the block. *)
Definition pad (tail : list Z) : list Z :=
  let k := (rate - length tail)%nat in
  match k with
  | 1%nat => tail ++ [0x81]
  | _ => tail ++ [0x01] ++ zeros (k - 2) ++ [0x80]
  end.

(** Modelled from the spec: the message absorbed block by block; [fuel]
    bounds the number of blocks and [S (length msg)] is always enough. *)
Fixpoint absorb (fuel : nat) (s : list Z) (msg : list Z) : list Z :=
  match fuel with
  | O => s
  | S fuel' =>
      if (length msg <? rate)%nat then absorb_block s (pad msg)
      else absorb fuel' (absorb_block s (firstn rate msg)) (skipn rate msg)
  end.

(** Modelled from the spec: the digest, the first four lanes of the state
    after absorption. *)
Definition keccak256 (msg : list Z) : list Z :=
  let s := absorb (S (length msg)) (repeat 0 25) msg in
  flat_map (fun i => bytes_of_lane (nth i s 0)) [0; 1; 2; 3]%nat.

End Keccak.

(** Modelled from the spec: [d.Write(b); d.Sum(nil)] on a fresh
    [sha3.NewLegacyKeccak256()], the sponge absorbing the concatenation of
    what is written to it. *)
Definition keccak256 : list Z -> list Z := Keccak.keccak256.


(** ** Collaborators of the trie package that are not among the sources *)

(** The nibbles of a key: the high half of every byte, then its low half. *)
Definition nibbles (str : list Z) : list Z :=
  flat_map (fun b => [b / 16; b mod 16]) str.

(** Modelled from the spec: trie/encoding.go is not among the sources.
    [keybytesToHex] expands every key byte into its high nibble, then its low
    nibble, and ends the sequence with the sentinel nibble 16. *)
Definition keybytesToHex (str : list Z) : list Z := nibbles str ++ [16].

(** Modelled from the spec: trie/trie.go is not among the sources.
    [emptyRoot] is the root of the empty trie,
    56e81f171bcc55a6ff8345e692c0f86e5b48e01b996cadc001622fb5e363b421. *)
Definition emptyRoot : list Z :=
  [ 0x56; 0xe8; 0x1f; 0x17; 0x1b; 0xcc; 0x55; 0xa6;
    0xff; 0x83; 0x45; 0xe6; 0x92; 0xc0; 0xf8; 0x6e;
    0x5b; 0x48; 0xe0; 0x1b; 0x99; 0x6c; 0xad; 0xc0;
    0x01; 0x62; 0x2f; 0xb5; 0xe3; 0x63; 0xb4; 0x21 ].

(** Modelled from the spec: the length of a [common.Hash]. *)
Definition HashLength : nat := 32.

(** Modelled from the spec: common/types.go is not among the sources.
    [common.BytesToHash] makes a 32-byte [common.Hash] of a byte slice: a
    longer slice keeps its last 32 bytes, a shorter one is put at the right
    end of the zeroed array. *)
Definition BytesToHash (b : list Z) : list Z :=
  let b' := skipn (length b - HashLength) b in
  zeros (HashLength - length b') ++ b'.

(** ** The node *)

Inductive NodeType : Type :=
| branchNode
| extNode
| leafNode
| emptyNode
| hashedNode.

Definition NodeType_eqb (a b : NodeType) : bool :=
  match a, b with
  | branchNode, branchNode | extNode, extNode | leafNode, leafNode
  | emptyNode, emptyNode | hashedNode, hashedNode => true
  | _, _ => false
  end.

(** [children] is the array [[16]*ReStackTrie]: a list of 16 slots, [None]
    for the nil pointer.  Every node is owned by the one slot that points to
    it, so a slot holds the node itself.  [keyOffset] and the other lengths
    and positions of the structure engine are never negative and are kept
    in [nat]. *)
#[local] Unset Elimination Schemes.
Inductive ReStackTrie : Type := mkReStackTrie {
  nodeType : NodeType;
  val : list Z;
  key : list Z;
  keyOffset : nat;
  children : list (option ReStackTrie)
}.
#[local] Set Elimination Schemes.

Definition nilChildren : list (option ReStackTrie) := repeat None 16.

Definition NewReStackTrie : ReStackTrie :=
  mkReStackTrie emptyNode [] [] 0 nilChildren.

Definition with_nodeType (st : ReStackTrie) (t : NodeType) : ReStackTrie :=
  mkReStackTrie t (val st) (key st) (keyOffset st) (children st).
Definition with_val (st : ReStackTrie) (v : list Z) : ReStackTrie :=
  mkReStackTrie (nodeType st) v (key st) (keyOffset st) (children st).
Definition with_key (st : ReStackTrie) (k : list Z) : ReStackTrie :=
  mkReStackTrie (nodeType st) (val st) k (keyOffset st) (children st).
Definition with_keyOffset (st : ReStackTrie) (o : nat) : ReStackTrie :=
  mkReStackTrie (nodeType st) (val st) (key st) o (children st).
Definition with_children (st : ReStackTrie) (cs : list (option ReStackTrie)) : ReStackTrie :=
  mkReStackTrie (nodeType st) (val st) (key st) (keyOffset st) cs.

(** Reads, writes and re-slicings at a position held in [nat]. *)
Definition at_nat {A : Type} (a : list A) (i : nat) : result A :=
  match nth_error a i with
  | Some x => Ok x
  | None => RuntimePanic IndexOutOfRange
  end.

Definition store_nat {A : Type} (a : list A) (i : nat) (v : A) : result (list A) :=
  if (i <? length a)%nat then Ok (set_nth a i v) else RuntimePanic IndexOutOfRange.

Definition from_nat {A : Type} (a : list A) (lo : nat) : result (list A) :=
  if (length a <? lo)%nat then RuntimePanic SliceBoundsOutOfRange else Ok (skipn lo a).

Definition upto_nat {A : Type} (a : list A) (hi : nat) : result (list A) :=
  if (length a <? hi)%nat then RuntimePanic SliceBoundsOutOfRange else Ok (firstn hi a).

(** ** Encoder: the small encoder [rawHPRLP] *)

(** [payload[pos] |= v]. *)
Definition or_store (a : list Z) (pos : Z) (v : Z) : result (list Z) :=
  old <- index a pos ;;
  store a pos (Z.lor old v).

(** The loop [for i, nibble := range key] of [rawHPRLP]; [n] is [len(key)]
    and [i] the index of the head of [rest]. *)
Fixpoint rawHPRLP_nibbles (n : Z) (rest : list Z) (i : Z) (payload : list Z) (pos : Z)
  : result (list Z * Z) :=
  match rest with
  | [] => Ok (payload, pos)
  | nibble :: rest' =>
      let offset := 1 - (n + i) mod 2 in
      payload <- or_store payload pos (byte_of (Z.shiftl nibble (4 * offset))) ;;
      let pos := if offset =? 0 then pos + 1 else pos in
      rawHPRLP_nibbles n rest' (i + 1) payload pos
  end.

Definition rawHPRLP (key val : list Z) (leaf : bool) : result (list Z) :=
  let payload := zeros 32 in
  val_header_len <-
    (if len val =? 1
     then v0 <- index val 0 ;; Ok (if v0 <? 128 then 0 else 1)
     else Ok 1) ;;
  let '(key_header_len, hplen) :=
    match length key with
    | O => (0, 0)
    | 1%nat => (0, 1)
    | _ => (1, 1)
    end in
  payload <- store payload 0
    (byte_of (192 + byte_of (hplen + key_header_len + len key / 2 + val_header_len + len val))) ;;
  let pos := 1 in
  '(payload, pos) <-
    (if 0 <? len key then
       '(payload, pos) <-
         (if key_header_len =? 1
          then payload <- store payload 1 (byte_of (1 + len key / 2)) ;; Ok (payload, pos + 1)
          else Ok (payload, pos)) ;;
       payload <- store payload pos (byte_of (16 * (len key mod 2))) ;;
       payload <- (if leaf then or_store payload pos 32 else Ok payload) ;;
       let pos := if len key mod 2 =? 0 then pos + 1 else pos in
       rawHPRLP_nibbles (len key) key 0 payload pos
     else Ok (payload, pos)) ;;
  has_header <-
    (if 1 <? len val then Ok true
     else v0 <- index val 0 ;; Ok (128 <=? v0)) ;;
  '(payload, pos) <-
    (if has_header : bool then
       payload <- store payload pos (byte_of (len val)) ;;
       payload <-
         (if 1 <? len val
          then old <- index payload pos ;; store payload pos (byte_of (old + 128))
          else Ok payload) ;;
       Ok (payload, pos + 1)
     else Ok (payload, pos)) ;;
  dst <- slice_from payload pos ;;
  let payload := copy_at payload (Z.to_nat pos) (length dst) val in
  let pos := pos + len val in
  if pos =? 2 then slice payload 1 pos
  else slice payload 0 pos.

(** ** Encoder: the streaming encoder [writeHPRLP] *)

(** The loop [for i, nibble := range key] of [writeHPRLP]; the result is what
    it writes. *)
Fixpoint writeHPRLP_nibbles (keyOffset : Z) (rest : list Z) (i : Z) (m : Z) : list Z :=
  match rest with
  | [] => []
  | nibble :: rest' =>
      if keyOffset <=? i then
        if (i - keyOffset) mod 2 =? 0
        then writeHPRLP_nibbles keyOffset rest' (i + 1) nibble
        else byte_of (byte_of (m * 16) + nibble) :: writeHPRLP_nibbles keyOffset rest' (i + 1) m
      else writeHPRLP_nibbles keyOffset rest' (i + 1) m
  end.

Definition maxHeaderSize : Z := 1 + 1 + 1 + 1.

(** [writeHPRLP] returns the bytes it passes to [writer.Write], in order. *)
Definition writeHPRLP (key val : list Z) (leaf : bool) : result (list Z) :=
  let hp := if leaf then 32 else 0 in
  let header := zeros 4 in
  let headerPos := maxHeaderSize - 1 in
  '(header, keyOffset) <-
    (if len key mod 2 =? 0
     then header <- store header headerPos hp ;; Ok (header, 0)
     else k0 <- index key 0 ;;
          header <- store header headerPos (Z.lor (Z.lor hp k0) 16) ;; Ok (header, 1)) ;;
  let headerPos := headerPos - 1 in
  let keyByteSize := byte_of (len key / 2) in
  last <- index header (len header - 1) ;;
  '(header, headerPos) <-
    (if (1 <? len key) || (128 <? last)
     then header <- store header headerPos (byte_of (0x80 + keyByteSize + 1)) ;;
          Ok (header, headerPos - 1)
     else Ok (header, headerPos)) ;;
  valHeaderLen <-
    (if len val =? 1
     then v0 <- index val 0 ;; Ok (if v0 <? 128 then 0 else 1)
     else Ok 1) ;;
  let valHeaderLen := if 56 <? len val then 2 else valHeaderLen in
  let payloadSize := keyByteSize + (len header - headerPos - 1) + valHeaderLen + len val in
  '(header, start) <-
    (if 56 <? payloadSize
     then header <- store header headerPos (byte_of payloadSize) ;;
          let headerPos := headerPos - 1 in
          header <- store header headerPos 0xf8 ;;
          Ok (header, headerPos)
     else header <- store header headerPos (byte_of (0xc0 + byte_of payloadSize)) ;;
          Ok (header, headerPos)) ;;
  w1 <- slice_from header start ;;
  let w2 := writeHPRLP_nibbles keyOffset key 0 0 in
  w3 <-
    (if 56 <? len val then Ok [0xb8; byte_of (len val)]
     else
       has_header <-
         (if 1 <? len val then Ok true
          else v0 <- index val 0 ;; Ok (128 <=? v0)) ;;
       Ok (if has_header : bool then [byte_of (0x80 + byte_of (len val))] else [])) ;;
  Ok (w1 ++ w2 ++ w3 ++ val).

(** ** The node hasher *)

(** One non-nil child of a branch written into [payload]: the body of the
    [if v != nil] of the loop of [hash], after [childhash := v.hash()]. *)
Definition branch_put_child (payload : list Z) (pos : Z) (childhash : list Z)
  : result (list Z * Z) :=
  single <-
    (if len childhash =? 1
     then c0 <- index childhash 0 ;; Ok (c0 <? 128)
     else Ok false) ;;
  '(payload, pos) <-
    (if single : bool
     then c0 <- index childhash 0 ;;
          payload <- store payload pos c0 ;; Ok (payload, pos)
     else payload <- store payload pos (byte_of (128 + byte_of (len childhash))) ;;
          Ok (payload, pos + 1)) ;;
  dst <- slice payload pos (pos + len childhash) ;;
  let payload := copy_at payload (Z.to_nat pos) (length dst) childhash in
  Ok (payload, pos + len childhash).

(** The loop [for i, v := range st.children] of [hash], given the hasher
    [h] of a child.  Every visited slot is nil afterwards. *)
Fixpoint branch_children {T : Type} (h : T -> result (list Z * T))
  (cs : list (option T)) (payload : list Z) (pos : Z) : result (list Z * Z) :=
  match cs with
  | [] => Ok (payload, pos)
  | Some v :: cs' =>
      '(childhash, _) <- h v ;;
      '(payload, pos) <- branch_put_child payload pos childhash ;;
      branch_children h cs' payload pos
  | None :: cs' =>
      payload <- store payload pos 0x80 ;;
      branch_children h cs' payload (pos + 1)
  end.

(** The header of a branch and the choice between the raw encoding and its
    digest: the end of the [branchNode] case. *)
Definition branch_finish (payload : list Z) (pos : Z) : result (list Z) :=
  payload <- store payload pos 0x80 ;;
  let pos := pos + 1 in
  '(payload, start) <-
    (if pos - 3 <? 56 then
       payload <- store payload 2 (byte_of (0xc0 + byte_of (pos - 3))) ;;
       Ok (payload, 2)
     else if pos - 3 <? 256 then
       payload <- store payload 2 (byte_of (pos - 3)) ;;
       payload <- store payload 1 0xf8 ;;
       Ok (payload, 1)
     else
       payload <- store payload 2 (byte_of (pos - 3)) ;;
       payload <- store payload 1 (byte_of (Z.shiftr (pos - 3) 8)) ;;
       payload <- store payload 0 0xf9 ;;
       Ok (payload, 0)) ;;
  enc <- slice payload start pos ;;
  if pos - start <? 32 then Ok enc else Ok (keccak256 enc).

(** The loop [for i := 0; i < len(st.key); i++] of the small extension
    encoder; [n] is [len(st.key)], [i] the index of the head of [rest]. *)
Fixpoint ext_nibbles (n : Z) (rest : list Z) (i : Z) (rlp : list Z) : result (list Z) :=
  match rest with
  | [] => Ok rlp
  | k :: rest' =>
      rlp <- store rlp (3 - n mod 2 + i / 2)
               (byte_of (Z.shiftl k (4 * ((i + 1 + n) mod 2)))) ;;
      ext_nibbles n rest' (i + 1) rlp
  end.

(** The small extension encoder: the body of the
    [if (len(st.key)/2)+1+len(ch) < 29] of the [extNode] case. *)
Definition ext_small (key ch : list Z) : result (list Z) :=
  let rlp := zeros 32 in
  rlp <-
    (if len key mod 2 =? 0 then store rlp 2 0
     else k0 <- index key 0 ;; store rlp 2 (byte_of (16 + k0))) ;;
  rlp <- store rlp 1 (byte_of (128 + 1 + len key / 2)) ;;
  rlp <- ext_nibbles (len key) key 0 rlp ;;
  dst <- slice_from rlp (3 + len key / 2) ;;
  let rlp := copy_at rlp (Z.to_nat (3 + len key / 2)) (length dst) ch in
  rlp <- store rlp 0 (byte_of (192 + 2 + len key / 2 + len ch)) ;;
  slice rlp 0 (3 + len key / 2 + len ch).

(** [hash] returns the bytes of the Go function together with the receiver
    as the call leaves it: a branch has lost its children, an extension that
    went through the sponge has lost its child. *)
Fixpoint hash (st : ReStackTrie) : result (list Z * ReStackTrie) :=
  match st with
  | mkReStackTrie nt v k off cs =>
      match nt with
      | hashedNode => Ok (v, st)
      | branchNode =>
          let payload := zeros 544 in
          let pos := 3 in
          '(payload, pos) <- branch_children hash cs payload pos ;;
          out <- branch_finish payload pos ;;
          Ok (out, mkReStackTrie nt v k off (map (fun _ => None) cs))
      | extNode =>
          match cs with
          | Some c :: cs' =>
              '(ch, c') <- hash c ;;
              if len k / 2 + 1 + len ch <? 29 then
                out <- ext_small k ch ;;
                Ok (out, mkReStackTrie nt v k off (Some c' :: cs'))
              else
                w <- writeHPRLP k ch false ;;
                Ok (keccak256 w, mkReStackTrie nt v k off (None :: cs'))
          | None :: _ => RuntimePanic NilDereference
          | [] => RuntimePanic IndexOutOfRange
          end
      | leafNode =>
          if len k / 2 + 1 + len v <? 29 then
            out <- rawHPRLP k v true ;;
            Ok (out, st)
          else
            w <- writeHPRLP k v true ;;
            Ok (keccak256 w, st)
      | emptyNode => Ok (emptyRoot, st)
      end
  end.

(** [n.val = n.hash(); n.key = nil; n.nodeType = hashedNode]: the node is
    turned into its stub. *)
Definition collapse (n : ReStackTrie) : result ReStackTrie :=
  '(h, n') <- hash n ;;
  Ok (mkReStackTrie hashedNode h [] (keyOffset n') (children n')).

(** ** The structure engine *)

(** The loop of [getDiffIndex]: [rest] is what is left of [st.key], [pos]
    is [st.keyOffset + diffindex].  The parameter [key] of the Go functions
    is called [fullkey] here, the field keeps its name. *)
Fixpoint getDiffIndex_loop (rest : list Z) (fullkey : list Z) (pos : nat) (diffindex : nat)
  : result nat :=
  match rest with
  | [] => Ok diffindex
  | b :: rest' =>
      b' <- at_nat fullkey pos ;;
      if b =? b' then getDiffIndex_loop rest' fullkey (S pos) (S diffindex)
      else Ok diffindex
  end.

Definition getDiffIndex (st : ReStackTrie) (fullkey : list Z) : result nat :=
  getDiffIndex_loop (key st) fullkey (keyOffset st) 0.

(** A fresh node at a given depth: [NewReStackTrie()] followed by the
    assignment of [keyOffset]. *)
Definition newAt (off : nat) : ReStackTrie := with_keyOffset NewReStackTrie off.

(** The [emptyNode] case of [insert]. *)
Definition insert_empty (st : ReStackTrie) (fullkey value : list Z) : result ReStackTrie :=
  k <- from_nat fullkey (keyOffset st) ;;
  Ok (mkReStackTrie leafNode value k (keyOffset st) (children st)).

(** The [leafNode] case of [insert]. *)
Definition insert_leaf (st : ReStackTrie) (fullkey value : list Z) : result ReStackTrie :=
  diffidx <- getDiffIndex st fullkey ;;
  if (length (key st) <=? diffidx)%nat then Panic "Trying to insert into existing key"
  else
    (* [p] is [st] itself or the new branch under it *)
    let pOffset := if (diffidx =? 0)%nat then keyOffset st else (keyOffset st + diffidx)%nat in
    pChildren <-
      (if (diffidx =? 0)%nat then store_nat (children st) 0 None
       else Ok nilChildren) ;;
    origIdx <- at_nat (key st) diffidx ;;
    _ <- at_nat pChildren (Z.to_nat origIdx) ;;
    origKey <- from_nat (key st) (diffidx + 1) ;;
    let orig := mkReStackTrie leafNode (val st) origKey (pOffset + 1) nilChildren in
    orig <- collapse orig ;;
    pChildren <- store_nat pChildren (Z.to_nat origIdx) (Some orig) ;;
    newIdx <- at_nat fullkey (diffidx + keyOffset st) ;;
    _ <- at_nat pChildren (Z.to_nat newIdx) ;;
    newKey <- from_nat fullkey (pOffset + 1) ;;
    let new := mkReStackTrie leafNode value newKey (pOffset + 1) nilChildren in
    pChildren <- store_nat pChildren (Z.to_nat newIdx) (Some new) ;;
    stKey <- upto_nat (key st) diffidx ;;
    if (diffidx =? 0)%nat then
      Ok (mkReStackTrie branchNode (val st) stKey (keyOffset st) pChildren)
    else
      stChildren <- store_nat (children st) 0
        (Some (mkReStackTrie branchNode [] [] pOffset pChildren)) ;;
      Ok (mkReStackTrie extNode (val st) stKey (keyOffset st) stChildren).

(** The split of the [extNode] case of [insert], reached when
    [diffidx != len(st.key)]. *)
Definition insert_ext_split (st : ReStackTrie) (diffidx : nat) (fullkey value : list Z)
  : result ReStackTrie :=
  child0 <- at_nat (children st) 0 ;;
  n <-
    (if (diffidx + 1 <? length (key st))%nat then
       nKey <- from_nat (key st) (diffidx + 1) ;;
       nChildren <- store_nat nilChildren 0 child0 ;;
       Ok (mkReStackTrie extNode [] nKey 0 nChildren)
     else
       match child0 with
       | Some c => Ok c
       | None => RuntimePanic NilDereference
       end) ;;
  let n := with_keyOffset n (keyOffset st + diffidx + 1) in
  let pOffset := if (diffidx =? 0)%nat then keyOffset st else (keyOffset st + diffidx)%nat in
  pChildren <-
    (if (diffidx =? 0)%nat then store_nat (children st) 0 None
     else Ok nilChildren) ;;
  n <- collapse n ;;
  let oOffset := (keyOffset st + diffidx + 1)%nat in
  oKey <- from_nat fullkey oOffset ;;
  let o := mkReStackTrie leafNode value oKey oOffset nilChildren in
  origIdx <- at_nat (key st) diffidx ;;
  newIdx <- at_nat fullkey (diffidx + keyOffset st) ;;
  pChildren <- store_nat pChildren (Z.to_nat origIdx) (Some n) ;;
  pChildren <- store_nat pChildren (Z.to_nat newIdx) (Some o) ;;
  stKey <- upto_nat (key st) diffidx ;;
  if (diffidx =? 0)%nat then
    Ok (mkReStackTrie branchNode (val st) stKey (keyOffset st) pChildren)
  else
    stChildren <- store_nat (children st) 0
      (Some (mkReStackTrie branchNode [] [] pOffset pChildren)) ;;
    Ok (mkReStackTrie extNode (val st) stKey (keyOffset st) stChildren).

(** The loop [for i := idx - 1; i >= 0; i--] of the [branchNode] case:
    [n] counts the slots still to visit, the next one is [n - 1]. *)
Fixpoint collapse_left (cs : list (option ReStackTrie)) (n : nat)
  : result (list (option ReStackTrie)) :=
  match n with
  | O => Ok cs
  | S i =>
      ci <- at_nat cs i ;;
      match ci with
      | Some c =>
          if NodeType_eqb (nodeType c) hashedNode then Ok cs
          else c' <- collapse c ;; store_nat cs i (Some c')
      | None => collapse_left cs i
      end
  end.

(** [f] applied to the slot [i] of an array, when there is one. *)
Fixpoint at_slot {A B : Type} (f : A -> B) (cs : list A) (i : nat) : option B :=
  match cs, i with
  | [], _ => None
  | c :: _, O => Some (f c)
  | _ :: cs', S i' => at_slot f cs' i'
  end.

Fixpoint insert (st : ReStackTrie) (fullkey value : list Z) : result ReStackTrie :=
  match st with
  | mkReStackTrie nt v k off cs =>
      match nt with
      | branchNode =>
          b <- at_nat fullkey off ;;
          let idx := Z.to_nat b in
          (* the call on [st.children[idx]], on a fresh node when the slot is nil *)
          match at_slot (fun slot : option ReStackTrie =>
                           match slot with
                           | Some c => insert c fullkey value
                           | None => insert_empty (newAt (off + 1)) fullkey value
                           end) cs idx with
          | None => RuntimePanic IndexOutOfRange
          | Some descend =>
              cs <- collapse_left cs idx ;;
              c' <- descend ;;
              cs <- store_nat cs idx (Some c') ;;
              Ok (mkReStackTrie nt v k off cs)
          end
      | extNode =>
          diffidx <- getDiffIndex st fullkey ;;
          if (diffidx =? length k)%nat then
            match cs with
            | Some c :: cs' =>
                c' <- insert c fullkey value ;;
                Ok (mkReStackTrie nt v k off (Some c' :: cs'))
            | None :: _ => RuntimePanic NilDereference
            | [] => RuntimePanic IndexOutOfRange
            end
          else insert_ext_split st diffidx fullkey value
      | leafNode => insert_leaf st fullkey value
      | emptyNode => insert_empty st fullkey value
      | hashedNode => Panic "trying to insert into hash"
      end
  end.

(** ** The public facade *)

(** The Go type [error]: [None] is [nil]. *)
Definition error : Type := option string.

Definition TryUpdate (st : ReStackTrie) (key value : list Z) : result (ReStackTrie * error) :=
  let k := keybytesToHex key in
  if len value =? 0 then Panic "deletion not supported"
  else
    k' <- upto_nat k (length k - 1) ;;
    st <- insert st k' value ;;
    Ok (st, None).

Definition Hash (st : ReStackTrie) : result (list Z * ReStackTrie) :=
  '(h, st) <- hash st ;;
  Ok (BytesToHash h, st).

(** [StackTrie(S)]: the pairs of [S] passed to [TryUpdate] one after the
    other. *)
Fixpoint updates (st : ReStackTrie) (kvs : list (list Z * list Z)) : result ReStackTrie :=
  match kvs with
  | [] => Ok st
  | (k, v) :: kvs' =>
      '(st, _) <- TryUpdate st k v ;;
      updates st kvs'
  end.

(** The root of a new trie fed with [kvs]: [Hash()] after the updates. *)
Definition root_of (kvs : list (list Z * list Z)) : result (list Z) :=
  st <- updates NewReStackTrie kvs ;;
  '(h, _) <- Hash st ;;
  Ok h.

(** ** The reference Merkle-Patricia trie *)

Module Reference.

(** The conventional trie of the package (trie/trie.go, trie/hasher.go) is
    not among the sources.  The encodings are those of section 4.3:
    Hex-Prefix keys, RLP strings and lists, leaf, extension and branch
    layouts, the embed-vs-hash rule and the final hash.  The builder is a
    plain recursive insertion that accepts the pairs in any order. *)

(** Modelled from the spec: the big-endian digits of a length, most significant first, without leading
    zero. *)
Fixpoint big_endian (fuel : nat) (n : Z) : list Z :=
  match fuel with
  | O => []
  | S fuel' => if n =? 0 then [] else big_endian fuel' (n / 256) ++ [n mod 256]
  end.

(** Modelled from the spec: the big-endian length that follows a long
    header. *)
Definition length_bytes (n : Z) : list Z := big_endian 8 n.

(** Modelled from the spec: the RLP encoding of a byte string. *)
Definition rlp_string (bs : list Z) : list Z :=
  match bs with
  | [b] => if b <? 0x80 then [b] else [0x81; b]
  | _ =>
      if len bs <=? 55 then (0x80 + len bs) :: bs
      else (0xb7 + len (length_bytes (len bs))) :: length_bytes (len bs) ++ bs
  end.

(** Modelled from the spec: the RLP encoding of a list, given the
    concatenation of its encoded items. *)
Definition rlp_list (payload : list Z) : list Z :=
  if len payload <=? 55 then (0xc0 + len payload) :: payload
  else (0xf7 + len (length_bytes (len payload))) :: length_bytes (len payload) ++ payload.

(** Modelled from the spec: nibbles packed two per byte, high nibble
    first. *)
Fixpoint pack_nibbles (k : list Z) : list Z :=
  match k with
  | hi :: lo :: k' => (16 * hi + lo) :: pack_nibbles k'
  | _ => []
  end.

(** Modelled from the spec: Hex-Prefix, flag 0x20 for the terminator, 0x10 for an odd length; an odd
    key puts its first nibble in the low half of the first byte. *)
Definition hex_prefix (k : list Z) (terminator : bool) : list Z :=
  let t := if terminator then 0x20 else 0 in
  if Nat.even (length k) then t :: pack_nibbles k
  else match k with
       | k0 :: k' => (t + 0x10 + k0) :: pack_nibbles k'
       | [] => [t]
       end.

(** Modelled from the spec: the two nibbles of every byte. *)
Fixpoint unpack_nibbles (bs : list Z) : list Z :=
  match bs with
  | [] => []
  | b :: bs' => b / 16 :: b mod 16 :: unpack_nibbles bs'
  end.

(** Modelled from the spec: the decoder of Hex-Prefix, which gives the
    nibbles and the terminator flag back. *)
Definition hex_prefix_decode (bs : list Z) : option (list Z * bool) :=
  match bs with
  | [] => None
  | b :: bs' =>
      let terminator := Z.testbit b 5 in
      if Z.testbit b 4 then Some (b mod 16 :: unpack_nibbles bs', terminator)
      else Some (unpack_nibbles bs', terminator)
  end.

(** Modelled from the spec: the three node kinds of a finished trie. *)
#[local] Unset Elimination Schemes.
Inductive Node : Type :=
| Leaf (k : list Z) (v : list Z)
| Extension (k : list Z) (child : Node)
| Branch (slots : list (option Node)).
#[local] Set Elimination Schemes.

(** Modelled from the spec: the embed-vs-hash rule, what a parent stores for a child of encoding
    [enc]. *)
Definition child_reference (enc : list Z) : list Z :=
  if len enc <? 32 then enc else 0xa0 :: keccak256 enc.

(** Modelled from the spec: the leaf, extension and branch encodings. *)
Fixpoint encode (n : Node) : list Z :=
  match n with
  | Leaf k v => rlp_list (rlp_string (hex_prefix k true) ++ rlp_string v)
  | Extension k c => rlp_list (rlp_string (hex_prefix k false) ++ child_reference (encode c))
  | Branch slots =>
      rlp_list
        (flat_map (fun slot => match slot with
                               | Some c => child_reference (encode c)
                               | None => [0x80]
                               end) slots ++ [0x80])
  end.

(** Modelled from the spec: the root, the digest of the root encoding whatever its length, and the
    digest of the empty string for the empty trie. *)
Definition root (t : option Node) : list Z :=
  match t with
  | None => keccak256 [0x80]
  | Some n => keccak256 (encode n)
  end.

(** Modelled from the spec: the length of the longest common prefix. *)
Fixpoint common_prefix (a b : list Z) : nat :=
  match a, b with
  | x :: a', y :: b' => if x =? y then S (common_prefix a' b') else O
  | _, _ => O
  end.

(** Modelled from the spec: the 16 empty slots of a new branch. *)
Definition no_slots : list (option Node) := repeat None 16.

(** Modelled from the spec: a branch over two diverging suffixes, under
    the prefix they share. *)
Definition fork (shared : list Z) (i : Z) (a : Node) (j : Z) (b : Node) : Node :=
  let br := Branch (set_nth (set_nth no_slots (Z.to_nat i) (Some a)) (Z.to_nat j) (Some b)) in
  match shared with
  | [] => br
  | _ => Extension shared br
  end.

(** Modelled from the spec: the slot [i] of a branch replaced by what [f]
    makes of it. *)
Fixpoint put_slot {A : Type} (f : option A -> option A) (slots : list (option A)) (i : nat)
  : option (list (option A)) :=
  match slots, i with
  | [], _ => None
  | s :: r, O => match f s with Some s' => Some (Some s' :: r) | None => None end
  | s :: r, S i' => match put_slot f r i' with Some r' => Some (s :: r') | None => None end
  end.

(** Modelled from the spec: insertion of one pair; [None] when one key is a proper prefix of another,
    which this trie of terminated keys does not represent. *)
Fixpoint insert (n : Node) (k v : list Z) : option Node :=
  match n with
  | Leaf k' v' =>
      let d := common_prefix k' k in
      match nth_error k' d, nth_error k d with
      | None, None => Some (Leaf k v)
      | Some i, Some j =>
          Some (fork (firstn d k) i (Leaf (skipn (S d) k') v') j (Leaf (skipn (S d) k) v))
      | _, _ => None
      end
  | Extension k' c =>
      let d := common_prefix k' k in
      match nth_error k' d, nth_error k d with
      | None, _ =>
          match insert c (skipn d k) v with
          | Some c' => Some (Extension k' c')
          | None => None
          end
      | Some i, Some j =>
          let below := match skipn (S d) k' with [] => c | rest => Extension rest c end in
          Some (fork (firstn d k) i below j (Leaf (skipn (S d) k) v))
      | Some _, None => None
      end
  | Branch slots =>
      match k with
      | [] => None
      | i :: k' =>
          match put_slot (fun slot => match slot with
                                      | Some c => insert c k' v
                                      | None => Some (Leaf k' v)
                                      end) slots (Z.to_nat i) with
          | Some slots' => Some (Branch slots')
          | None => None
          end
      end
  end.

(** Modelled from the spec: the trie of a list of pairs, in the order
    given. *)
Fixpoint build (t : option Node) (kvs : list (list Z * list Z)) : option (option Node) :=
  match kvs with
  | [] => Some t
  | (key, v) :: kvs' =>
      match t with
      | None => build (Some (Leaf (nibbles key) v)) kvs'
      | Some n =>
          match insert n (nibbles key) v with
          | Some n' => build (Some n') kvs'
          | None => None
          end
      end
  end.

(** Modelled from the spec: the root of the reference trie built from
    [kvs]. *)
Definition root_of (kvs : list (list Z * list Z)) : option (list Z) :=
  match build None kvs with
  | Some t => Some (root t)
  | None => None
  end.

End Reference.

(** ** Predicates of the specification *)

Definition is_byte (b : Z) : Prop := 0 <= b < 256.
Definition is_nibble (n : Z) : Prop := 0 <= n < 16.





(** Strict lexicographic order on nibble sequences. *)
Fixpoint nibbles_ltb (a b : list Z) : bool :=
  match a, b with
  | [], [] => false
  | [], _ :: _ => true
  | _ :: _, [] => false
  | x :: a', y :: b' => (x <? y) || ((x =? y) && nibbles_ltb a' b')
  end.

(** Keys in strictly ascending nibble order, each after its predecessor. *)
Fixpoint ascending (keys : list (list Z)) : bool :=
  match keys with
  | k1 :: ((k2 :: _) as rest) => nibbles_ltb (nibbles k1) (nibbles k2) && ascending rest
  | _ => true
  end.

Definition is_hashed (slot : option ReStackTrie) : Prop :=
  match slot with
  | Some c => nodeType c = hashedNode
  | None => True
  end.

(** The left-collapsed shape of the path that starts at the root: a leaf
    ends it, an extension continues it through its slot 0, a branch
    continues it through one slot, the descent index; the slots on its left
    are nil or hold stubs, the slots on its right are nil.  The predicate
    stops at a stub: what the pointers of a stub still hold is the subject
    of [one_path] below. *)
Inductive left_collapsed : ReStackTrie -> Prop :=
| lc_leaf (st : ReStackTrie) :
    nodeType st = leafNode ->
    children st = nilChildren ->
    left_collapsed st
| lc_ext (st c : ReStackTrie) :
    nodeType st = extNode ->
    children st = Some c :: repeat None 15 ->
    left_collapsed c ->
    left_collapsed st
| lc_branch (st c : ReStackTrie) (idx : nat) :
    nodeType st = branchNode ->
    length (children st) = 16%nat ->
    nth_error (children st) idx = Some (Some c) ->
    (forall i slot, (i < idx)%nat -> nth_error (children st) i = Some slot -> is_hashed slot) ->
    (forall i slot, (idx < i)%nat -> nth_error (children st) i = Some slot -> slot = None) ->
    nodeType c <> hashedNode ->
    left_collapsed c ->
    left_collapsed st.

(** The same shape together with the key inserted last: the path spells
    [last] from the depth [off] on.  This is what an insertion preserves. *)
Inductive spine (last : list Z) : nat -> ReStackTrie -> Prop :=
| spine_leaf (off : nat) (st : ReStackTrie) :
    nodeType st = leafNode ->
    keyOffset st = off ->
    key st = skipn off last ->
    children st = nilChildren ->
    spine last off st
| spine_ext (off : nat) (st c : ReStackTrie) :
    nodeType st = extNode ->
    keyOffset st = off ->
    key st = firstn (length (key st)) (skipn off last) ->
    children st = Some c :: repeat None 15 ->
    spine last (off + length (key st)) c ->
    spine last off st
| spine_branch (off : nat) (st c : ReStackTrie) (b : Z) :
    nodeType st = branchNode ->
    keyOffset st = off ->
    nth_error last off = Some b ->
    length (children st) = 16%nat ->
    nth_error (children st) (Z.to_nat b) = Some (Some c) ->
    (forall i slot, (i < Z.to_nat b)%nat ->
                    nth_error (children st) i = Some slot -> is_hashed slot) ->
    (forall i slot, (Z.to_nat b < i)%nat ->
                    nth_error (children st) i = Some slot -> slot = None) ->
    spine last (S off) c ->
    spine last off st.

(** [node_at st pos]: the node that the child pointers reach from [st]
    through the slots [pos], taken one after the other.  The pointers of a
    stub are followed like those of any other node: the resident tree is
    all that the root still holds. *)
Fixpoint node_at (st : ReStackTrie) (pos : list nat) : option ReStackTrie :=
  match pos with
  | [] => Some st
  | i :: pos' =>
      match nth_error (children st) i with
      | Some (Some c) => node_at c pos'
      | _ => None
      end
  end.

(** The resident nodes that are not stubs form exactly one path from the
    root: the path ends at a position [tip], and a resident node is not a
    stub exactly when its position lies on the way from the root to
    [tip]. *)
Definition one_path (st : ReStackTrie) : Prop :=
  exists tip : list nat,
    forall pos n, node_at st pos = Some n ->
      (nodeType n <> hashedNode <-> exists rest, tip = pos ++ rest).

(** ** Auxiliary predicates *)

(** A property of the node held by a slot, if any. *)
Definition slot_holds (P : ReStackTrie -> Prop) (slot : option ReStackTrie) : Prop :=
  match slot with
  | Some c => P c
  | None => True
  end.

(** [no_panic r]: [r] is not a panic raised by the source. *)
Definition no_panic {A : Type} (r : result A) : Prop := forall msg, r <> Panic msg.



(** ** Concrete inputs used below *)

Definition verb : list Z := [0x76; 0x65; 0x72; 0x62].

(** Two 32-byte keys that differ in their last nibble. *)
Definition two_long_keys : list (list Z * list Z) :=
  [ (repeat 0 32, [0x61]); (repeat 0 31 ++ [1], [0x62]) ].

(** Three one-byte keys that branch at the first nibble. *)
Definition three_first_nibbles : list (list Z * list Z) :=
  [ ([0x10], [0x61]); ([0x20], [0x62]); ([0x30], [0x63]) ].

(** Two keys that share the four nibbles a, b, c, d. *)
Definition shared_abcd : list (list Z * list Z) :=
  [ ([0xab; 0xcd; 0x00], [0x78]); ([0xab; 0xcd; 0x10], [0x79]) ].

(** Four keys in ascending order: a split of a leaf, a descent through
    the extension and the branch, a split of the extension. *)
Definition ascending_run : list (list Z * list Z) :=
  [ ([0xab; 0xcd; 0x00], [0x78]); ([0xab; 0xcd; 0x10], [0x79]);
    ([0xab; 0xce; 0x00], repeat 0x7a 40); ([0xb0; 0x00; 0x00], [0x7b]) ].

(** Three keys in ascending order: the third one leaves the extension over
    a, b, c, d of the first two after its first nibble. *)
Definition split_run : list (list Z * list Z) :=
  [ ([0xab; 0xcd; 0x00], [0x78]); ([0xab; 0xcd; 0x10], [0x79]);
    ([0xac; 0x00; 0x00], [0x7a]) ].

(** The same keys with values of forty bytes, which take every node through
    the sponge. *)
Definition split_run_long : list (list Z * list Z) :=
  [ ([0xab; 0xcd; 0x00], repeat 0x78 40); ([0xab; 0xcd; 0x10], repeat 0x79 40);
    ([0xac; 0x00; 0x00], repeat 0x7a 40) ].

(** * Properties *)

(** Conjunctions of closed equations are decided by evaluation. *)
Ltac conj := repeat match goal with |- _ /\ _ => split end.
Ltac by_evaluation :=
  conj; try match goal with |- _ = _ => vm_compute; reflexivity end.

(** ** Known answers of the modelled collaborators *)

(** The constant [emptyRoot] is the digest of the RLP empty string, which
    also checks the sponge on a one-block message. *)
Lemma emptyRoot_is_keccak_of_0x80 : emptyRoot = keccak256 [0x80].
Proof. vm_compute. reflexivity. Qed.

Lemma keccak256_of_nothing :
  keccak256 [] =
  [ 0xc5; 0xd2; 0x46; 0x01; 0x86; 0xf7; 0x23; 0x3c; 0x92; 0x7e; 0x7d; 0xb2;
    0xdc; 0xc7; 0x03; 0xc0; 0xe5; 0x00; 0xb6; 0x53; 0xca; 0x82; 0x27; 0x3b;
    0x7b; 0xfa; 0xd8; 0x04; 0x5d; 0x85; 0xa4; 0x70 ].
Proof. vm_compute. reflexivity. Qed.

Lemma keccak256_length (msg : list Z) : length (keccak256 msg) = 32%nat.
Proof. reflexivity. Qed.

(** The reference trie on two vectors of the Ethereum trie tests: the pair
    of keys 0x0045 and 0x4500, and the single key "A" with fifty "a". *)
Lemma reference_root_hex_vector :
  Reference.root_of [ ([0x00; 0x45], [0x01; 0x23; 0x45; 0x67; 0x89]);
                      ([0x45; 0x00], [0x98; 0x76; 0x54; 0x32; 0x10]) ] =
  Some [ 0x28; 0x55; 0x05; 0xfc; 0xab; 0xe8; 0x4b; 0xad; 0xc8; 0xaa; 0x31;
         0x0e; 0x2a; 0xae; 0x17; 0xed; 0xdc; 0x7d; 0x12; 0x0a; 0xab; 0xec;
         0x8a; 0x47; 0x69; 0x02; 0xc8; 0x18; 0x4b; 0x3a; 0x35; 0x03 ].
Proof. vm_compute. reflexivity. Qed.

Lemma reference_root_single_item :
  Reference.root_of [ ([0x41], repeat 0x61 50) ] =
  Some [ 0xd2; 0x37; 0x86; 0xfb; 0x4a; 0x01; 0x0d; 0xa3; 0xce; 0x63; 0x9d;
         0x66; 0xd5; 0xe9; 0x04; 0xa1; 0x1d; 0xbc; 0x02; 0x74; 0x6d; 0x1c;
         0xe2; 0x50; 0x29; 0xe5; 0x32; 0x90; 0xca; 0xbf; 0x28; 0xab ].
Proof. vm_compute. reflexivity. Qed.

(** The reference root does not depend on the order of insertion. *)
Lemma reference_root_any_order :
  Reference.root_of (rev three_first_nibbles) = Reference.root_of three_first_nibbles.
Proof. vm_compute. reflexivity. Qed.

(** The root of a trie without keys is [emptyRoot]. *)
Lemma Hash_of_new_trie : root_of [] = Ok emptyRoot.
Proof. vm_compute. reflexivity. Qed.

Lemma BytesToHash_length (b : list Z) : length (BytesToHash b) = 32%nat.
Proof.
  unfold BytesToHash, zeros, HashLength.
  rewrite length_app, repeat_length, length_skipn. lia.
Qed.

(** ** Root agreement *)

(** Claim C1 (root agreement): for pairs inserted in ascending key order
    the digest of [Hash()] is the root of the reference trie.  On the two
    32-byte keys 00..00 and 00..01 of the specification, inserted in order
    with the values "a" and "b", the two digests differ: the leaves left
    with an empty key are written without their Hex-Prefix byte, and the
    18-byte branch is handed to the extension as a byte string. *)
Theorem root_agreement_two_long_keys :
  ascending (map fst two_long_keys) = true /\
  root_of two_long_keys =
    Ok [ 196; 177; 6; 61; 194; 70; 115; 115; 49; 176; 136; 28; 43; 72; 67;
         181; 51; 129; 157; 149; 97; 203; 198; 181; 186; 240; 17; 226; 168;
         98; 151; 150 ] /\
  Reference.root_of two_long_keys =
    Some [ 53; 29; 11; 42; 72; 12; 79; 207; 103; 79; 222; 179; 133; 118; 97;
           253; 213; 4; 237; 203; 175; 150; 170; 196; 56; 117; 167; 123; 162;
           52; 123; 54 ] /\
  (forall got want,
     root_of two_long_keys = Ok got ->
     Reference.root_of two_long_keys = Some want -> got <> want).
Proof.
  by_evaluation.
  intros got want Hg Hw. vm_compute in Hg, Hw.
  injection Hg as <-. injection Hw as <-. discriminate.
Qed.

(** ** The final hash *)

(** Claim C2 (final hash): [Hash()] returns the Keccak-256 of the root
    encoding also when that encoding is shorter than 32 bytes.  After the
    three keys 0x10, 0x20, 0x30 the root is a branch of 27 bytes; [hash()]
    returns these bytes and [Hash()] returns them behind five zero bytes,
    which is not their digest. *)
Theorem Hash_of_short_root_is_not_a_digest :
  exists st st' enc,
    updates NewReStackTrie three_first_nibbles = Ok st /\
    hash st = Ok (enc, st') /\
    length enc = 27%nat /\
    Hash st = Ok (zeros 5 ++ enc, st') /\
    zeros 5 ++ enc <> keccak256 enc.
Proof.
  do 3 eexists. by_evaluation.
  vm_compute. discriminate.
Qed.

(** ** The embed-vs-hash rule *)

(** Claim C3 (embed threshold): a child whose encoding is shorter than 32
    bytes is spliced into its parent as it is.  After the three keys 0x10,
    0x20, 0x30 every child of the root branch is a leaf of three bytes,
    c2 30 xx, the encoding the reference gives it too; the branch stores
    each behind the string header 0x83, where the reference branch holds
    the three bytes alone. *)
Theorem branch_wraps_embedded_children :
  exists st st' t,
    updates NewReStackTrie three_first_nibbles = Ok st /\
    nodeType st = branchNode /\
    rawHPRLP [0] [0x61] true = Ok [0xc2; 0x30; 0x61] /\
    Reference.encode (Reference.Leaf [0] [0x61]) = [0xc2; 0x30; 0x61] /\
    hash st =
      Ok ([ 0xda; 0x80; 0x83; 0xc2; 0x30; 0x61; 0x83; 0xc2; 0x30; 0x62;
            0x83; 0xc2; 0x30; 0x63 ] ++ repeat 0x80 13, st') /\
    Reference.build None three_first_nibbles = Some (Some t) /\
    Reference.encode t =
      [ 0xd7; 0x80; 0xc2; 0x30; 0x61; 0xc2; 0x30; 0x62; 0xc2; 0x30; 0x63 ]
        ++ repeat 0x80 13.
Proof.
  do 3 eexists. by_evaluation.
Qed.

(** ** RLP headers *)

(** Claim C4 (RLP headers): a string or a list payload of more than 55
    bytes has the long header, a shorter one the single byte.  The
    streaming encoder compares with 56 instead: a value of 56 bytes gets
    the single byte 0xb8 where the convention asks for b8 38, and a
    payload of 56 bytes gets the single byte 0xf8 where it asks for
    f8 38.  The first input reaches the encoder through [TryUpdate] of the
    key 0x00 with a value of 56 bytes. *)
Theorem writeHPRLP_headers_at_56 :
  writeHPRLP [0; 0] (repeat 1 56) true =
    Ok ([0xf8; 0x3c; 0x82; 0x20; 0x00; 0xb8] ++ repeat 1 56) /\
  Reference.rlp_string (repeat 1 56) = [0xb8; 0x38] ++ repeat 1 56 /\
  writeHPRLP [0; 0] (repeat 1 52) true =
    Ok ([0xf8; 0x82; 0x20; 0x00; 0xb4] ++ repeat 1 52) /\
  Reference.encode (Reference.Leaf [0; 0] (repeat 1 52)) =
    [0xf8; 0x38; 0x82; 0x20; 0x00; 0xb4] ++ repeat 1 52 /\
  (exists st,
     updates NewReStackTrie [([0x00], repeat 1 56)] = Ok st /\
     hash st =
       Ok (keccak256 ([0xf8; 0x3c; 0x82; 0x20; 0x00; 0xb8] ++ repeat 1 56), st)).
Proof.
  by_evaluation.
  eexists. by_evaluation.
Qed.

(** ** The single leaf *)

(** Claim C7 (single leaf): after the one pair (empty key, "verb") the root
    is the Keccak-256 of the list [HP([], leaf), "verb"], c6 20 84 76 65 72
    62.  [Hash()] returns 26 zero bytes followed by c5 84 76 65 72 62: the
    leaf is encoded without its Hex-Prefix byte and the six bytes are not
    hashed. *)
Theorem single_leaf_root :
  Reference.hex_prefix [] true = [0x20] /\
  Reference.encode (Reference.Leaf [] verb) = [0xc6; 0x20; 0x84] ++ verb /\
  root_of [([], verb)] = Ok (zeros 26 ++ [0xc5; 0x84] ++ verb) /\
  zeros 26 ++ [0xc5; 0x84] ++ verb <> keccak256 ([0xc6; 0x20; 0x84] ++ verb).
Proof.
  by_evaluation.
  vm_compute. discriminate.
Qed.

(** ** The two encoders *)

(** Claim C8 (encoder agreement): where both apply, [rawHPRLP] returns the
    bytes that [writeHPRLP] writes.  On the key 0, 1 and the value 02 03 of
    the test of the package, within the range of the small encoder, the
    small encoder gives the key string the length byte 0x02 and the
    streaming encoder the header 0x82. *)
Theorem rawHPRLP_differs_from_writeHPRLP :
  (len [0; 1] / 2 + 1 + len [2; 3] <? 29) = true /\
  rawHPRLP [0; 1] [2; 3] true = Ok [0xc6; 0x02; 0x20; 0x01; 0x82; 0x02; 0x03] /\
  writeHPRLP [0; 1] [2; 3] true = Ok [0xc6; 0x82; 0x20; 0x01; 0x82; 0x02; 0x03].
Proof. by_evaluation. Qed.

(** ** Hex-Prefix *)

(** Claim C9 (Hex-Prefix round trip): the Hex-Prefix string written for a
    leaf or an extension decodes to its nibbles and flag.  The root after
    the keys ab cd 00 and ab cd 10 is an extension over a, b, c, d whose
    encoding carries the string 00 0b 0d, which decodes to 0, b, 0, d; and
    the leaf with the empty key is encoded as the list of its value alone,
    without any Hex-Prefix string. *)
Theorem hex_prefix_not_recovered :
  (exists st st',
     updates NewReStackTrie shared_abcd = Ok st /\
     nodeType st = extNode /\
     key st = [0xa; 0xb; 0xc; 0xd] /\
     hash st =
       Ok ([0xdc; 0x83] ++ [0x00; 0x0b; 0x0d]
             ++ [0xd7; 0x83; 0xc2; 0x30; 0x78; 0x83; 0xc2; 0x30; 0x79]
             ++ repeat 0x80 15, st')) /\
  Reference.hex_prefix_decode [0x00; 0x0b; 0x0d] = Some ([0; 0xb; 0; 0xd], false) /\
  Reference.hex_prefix [0xa; 0xb; 0xc; 0xd] false = [0x00; 0xab; 0xcd] /\
  rawHPRLP [] verb true = Ok (Reference.rlp_list (Reference.rlp_string verb)).
Proof.
  split.
  - do 2 eexists. by_evaluation.
  - by_evaluation.
Qed.

(** ** The error result *)

(** Claim C10 (error result): a call of [TryUpdate] that returns, returns
    the nil error. *)
Theorem TryUpdate_returns_nil (st st' : ReStackTrie) (key value : list Z) (err : error) :
  TryUpdate st key value = Ok (st', err) -> err = None.
Proof.
  unfold TryUpdate.
  destruct (len value =? 0); [discriminate|].
  destruct (upto_nat _ _) as [k'| |]; simpl; try discriminate.
  destruct (insert st k' value) as [st1| |]; simpl; try discriminate.
  intros H. injection H as _ <-. reflexivity.
Qed.

Lemma TryUpdate_returns_nil_witness :
  exists st', TryUpdate NewReStackTrie [0x01] [0x02; 0x03] = Ok (st', None).
Proof.
  destruct (TryUpdate NewReStackTrie [0x01] [0x02; 0x03]) as [[st' err]| |] eqn:E;
    try (vm_compute in E; discriminate).
  exists st'. rewrite (TryUpdate_returns_nil _ _ _ _ _ E). reflexivity.
Defined.

(** ** Panics of the structure engine *)


(** Nested induction on the node: the property holds of a node when it
    holds of the nodes in its slots. *)
Lemma ReStackTrie_nested_ind (P : ReStackTrie -> Prop)
  (step : forall nt v k off cs,
      Forall (slot_holds P) cs -> P (mkReStackTrie nt v k off cs)) :
  forall st, P st.
Proof.
  fix go 1. intros [nt v k off cs]. apply step.
  induction cs as [|slot cs IH]; constructor; [|exact IH].
  destruct slot as [c|]; simpl; [apply go | exact I].
Qed.


Lemma no_panic_Ok {A : Type} (a : A) : no_panic (Ok a).
Proof. intros msg; discriminate. Qed.

Lemma no_panic_RuntimePanic {A : Type} (e : RuntimeError) : no_panic (@RuntimePanic A e).
Proof. intros msg; discriminate. Qed.

Lemma no_panic_bind {A B : Type} (m : result A) (f : A -> result B) :
  no_panic m -> (forall a, no_panic (f a)) -> no_panic (bind m f).
Proof.
  intros Hm Hf msg. destruct m as [a|msg'|e]; simpl.
  - apply Hf.
  - destruct (Hm msg'). reflexivity.
  - discriminate.
Qed.

Lemma no_panic_index {A : Type} (a : list A) (i : Z) : no_panic (index a i).
Proof.
  unfold index. destruct (i <? 0); [apply no_panic_RuntimePanic|].
  destruct (nth_error a (Z.to_nat i)); [apply no_panic_Ok | apply no_panic_RuntimePanic].
Qed.

Lemma no_panic_store {A : Type} (a : list A) (i : Z) (v : A) : no_panic (store a i v).
Proof.
  unfold store. destruct ((i <? 0) || (len a <=? i));
    [apply no_panic_RuntimePanic | apply no_panic_Ok].
Qed.

Lemma no_panic_slice_from {A : Type} (a : list A) (lo : Z) : no_panic (slice_from a lo).
Proof.
  unfold slice_from. destruct ((lo <? 0) || (len a <? lo));
    [apply no_panic_RuntimePanic | apply no_panic_Ok].
Qed.

Lemma no_panic_slice {A : Type} (a : list A) (lo hi : Z) : no_panic (slice a lo hi).
Proof.
  unfold slice. destruct ((lo <? 0) || (hi <? lo) || (len a <? hi));
    [apply no_panic_RuntimePanic | apply no_panic_Ok].
Qed.

Lemma no_panic_at_nat {A : Type} (a : list A) (i : nat) : no_panic (at_nat a i).
Proof.
  unfold at_nat. destruct (nth_error a i); [apply no_panic_Ok | apply no_panic_RuntimePanic].
Qed.

Lemma no_panic_store_nat {A : Type} (a : list A) (i : nat) (v : A) :
  no_panic (store_nat a i v).
Proof.
  unfold store_nat. destruct (i <? length a)%nat;
    [apply no_panic_Ok | apply no_panic_RuntimePanic].
Qed.

Lemma no_panic_from_nat {A : Type} (a : list A) (lo : nat) : no_panic (from_nat a lo).
Proof.
  unfold from_nat. destruct (length a <? lo)%nat;
    [apply no_panic_RuntimePanic | apply no_panic_Ok].
Qed.

Lemma no_panic_upto_nat {A : Type} (a : list A) (hi : nat) : no_panic (upto_nat a hi).
Proof.
  unfold upto_nat. destruct (length a <? hi)%nat;
    [apply no_panic_RuntimePanic | apply no_panic_Ok].
Qed.

Create HintDb no_panic.
#[local] Hint Resolve no_panic_Ok no_panic_RuntimePanic no_panic_index no_panic_store
  no_panic_slice_from no_panic_slice no_panic_at_nat no_panic_store_nat
  no_panic_from_nat no_panic_upto_nat : no_panic.

(** One layer of a computation: a bind, a conditional, a destructuring. *)
Ltac no_panic_step :=
  match goal with
  | |- no_panic (bind _ _) => apply no_panic_bind; [|intros]
  | |- no_panic (if ?b then _ else _) => destruct b
  | |- no_panic (match ?x with _ => _ end) => destruct x
  | |- no_panic (let '(_, _) := ?p in _) => destruct p
  | |- no_panic _ => solve [auto with no_panic]
  end.

Ltac no_panic_auto := repeat no_panic_step.

Lemma no_panic_or_store (a : list Z) (pos v : Z) : no_panic (or_store a pos v).
Proof. unfold or_store. no_panic_auto. Qed.
#[local] Hint Resolve no_panic_or_store : no_panic.

Lemma no_panic_rawHPRLP_nibbles (n : Z) (rest : list Z) :
  forall i payload pos, no_panic (rawHPRLP_nibbles n rest i payload pos).
Proof.
  induction rest as [|nibble rest IH]; intros; simpl; [auto with no_panic|].
  apply no_panic_bind; [auto with no_panic|]. intros. apply IH.
Qed.
#[local] Hint Resolve no_panic_rawHPRLP_nibbles : no_panic.

Lemma no_panic_rawHPRLP (key val : list Z) (leaf : bool) : no_panic (rawHPRLP key val leaf).
Proof. unfold rawHPRLP. no_panic_auto. Qed.

Lemma no_panic_writeHPRLP (key val : list Z) (leaf : bool) :
  no_panic (writeHPRLP key val leaf).
Proof. unfold writeHPRLP. no_panic_auto. Qed.

Lemma no_panic_branch_put_child (payload : list Z) (pos : Z) (childhash : list Z) :
  no_panic (branch_put_child payload pos childhash).
Proof. unfold branch_put_child. no_panic_auto. Qed.

Lemma no_panic_branch_finish (payload : list Z) (pos : Z) :
  no_panic (branch_finish payload pos).
Proof. unfold branch_finish. no_panic_auto. Qed.

Lemma no_panic_ext_nibbles (n : Z) (rest : list Z) :
  forall i rlp, no_panic (ext_nibbles n rest i rlp).
Proof.
  induction rest as [|k rest IH]; intros; simpl; [auto with no_panic|].
  apply no_panic_bind; [auto with no_panic|]. intros. apply IH.
Qed.
#[local] Hint Resolve no_panic_ext_nibbles : no_panic.

Lemma no_panic_ext_small (key ch : list Z) : no_panic (ext_small key ch).
Proof. unfold ext_small. no_panic_auto. Qed.

#[local] Hint Resolve no_panic_rawHPRLP no_panic_writeHPRLP no_panic_branch_put_child
  no_panic_branch_finish no_panic_ext_small : no_panic.

Lemma no_panic_branch_children (cs : list (option ReStackTrie)) :
  Forall (slot_holds (fun c => no_panic (hash c))) cs ->
  forall payload pos, no_panic (branch_children hash cs payload pos).
Proof.
  induction 1 as [|slot cs Hslot _ IH]; intros; simpl; [auto with no_panic|].
  destruct slot as [c|]; simpl in Hslot.
  - apply no_panic_bind; [exact Hslot|]. intros [childhash c'].
    apply no_panic_bind; [auto with no_panic|]. intros [payload' pos']. apply IH.
  - apply no_panic_bind; [auto with no_panic|]. intros. apply IH.
Qed.

(** The hasher raises no panic of its own: its node types are the five of
    the source. *)
Lemma no_panic_hash (st : ReStackTrie) : no_panic (hash st).
Proof.
  induction st as [nt v k off cs IH] using ReStackTrie_nested_ind.
  destruct nt; simpl.
  - apply no_panic_bind; [apply no_panic_branch_children, IH|].
    intros [payload pos]. no_panic_auto.
  - destruct cs as [|[c|] cs']; [auto with no_panic| |auto with no_panic].
    inversion IH as [|? ? Hc _]; subst. simpl in Hc.
    apply no_panic_bind; [exact Hc|]. intros [ch c']. no_panic_auto.
  - no_panic_auto.
  - auto with no_panic.
  - auto with no_panic.
Qed.
#[local] Hint Resolve no_panic_hash : no_panic.

Lemma no_panic_collapse (n : ReStackTrie) : no_panic (collapse n).
Proof. unfold collapse. no_panic_auto. Qed.
#[local] Hint Resolve no_panic_collapse : no_panic.

Lemma no_panic_collapse_left (n : nat) :
  forall cs, no_panic (collapse_left cs n).
Proof.
  induction n as [|i IH]; intros; simpl; [auto with no_panic|].
  apply no_panic_bind; [auto with no_panic|]. intros [c|]; [|apply IH].
  no_panic_auto.
Qed.

Lemma no_panic_getDiffIndex_loop (rest fullkey : list Z) :
  forall pos d, no_panic (getDiffIndex_loop rest fullkey pos d).
Proof.
  induction rest as [|b rest IH]; intros; simpl; [auto with no_panic|].
  apply no_panic_bind; [auto with no_panic|]. intros b'.
  destruct (b =? b'); [apply IH | auto with no_panic].
Qed.

Lemma no_panic_getDiffIndex (st : ReStackTrie) (fullkey : list Z) :
  no_panic (getDiffIndex st fullkey).
Proof. apply no_panic_getDiffIndex_loop. Qed.

#[local] Hint Resolve no_panic_collapse_left no_panic_getDiffIndex : no_panic.

Lemma no_panic_insert_empty (st : ReStackTrie) (fullkey value : list Z) :
  no_panic (insert_empty st fullkey value).
Proof. unfold insert_empty. no_panic_auto. Qed.

Lemma no_panic_insert_ext_split (st : ReStackTrie) (d : nat) (fullkey value : list Z) :
  no_panic (insert_ext_split st d fullkey value).
Proof. unfold insert_ext_split. no_panic_auto. Qed.

#[local] Hint Resolve no_panic_insert_empty no_panic_insert_ext_split : no_panic.




Lemma at_slot_Some {A B : Type} (f : A -> B) (cs : list A) :
  forall i r, at_slot f cs i = Some r <-> exists slot, nth_error cs i = Some slot /\ r = f slot.
Proof.
  induction cs as [|c cs IH]; intros [|i] r; simpl; split.
  1,3: discriminate.
  1,2: intros [slot [H _]]; discriminate.
  - intros H. injection H as <-. exists c. split; reflexivity.
  - intros [slot [H ->]]. injection H as ->. reflexivity.
  - apply IH.
  - apply IH.
Qed.


(** The equations of [insert], one per node type. *)
Lemma insert_branch (st : ReStackTrie) (fullkey value : list Z) :
  nodeType st = branchNode ->
  insert st fullkey value =
    (b <- at_nat fullkey (keyOffset st) ;;
     match at_slot (fun slot : option ReStackTrie =>
                      match slot with
                      | Some c => insert c fullkey value
                      | None => insert_empty (newAt (keyOffset st + 1)) fullkey value
                      end) (children st) (Z.to_nat b) with
     | None => RuntimePanic IndexOutOfRange
     | Some descend =>
         cs <- collapse_left (children st) (Z.to_nat b) ;;
         c' <- descend ;;
         cs <- store_nat cs (Z.to_nat b) (Some c') ;;
         Ok (mkReStackTrie branchNode (val st) (key st) (keyOffset st) cs)
     end).
Proof. destruct st as [nt v k off cs]; simpl. intros ->. reflexivity. Qed.

Lemma insert_ext (st : ReStackTrie) (fullkey value : list Z) :
  nodeType st = extNode ->
  insert st fullkey value =
    (diffidx <- getDiffIndex st fullkey ;;
     if (diffidx =? length (key st))%nat then
       match children st with
       | Some c :: cs' =>
           c' <- insert c fullkey value ;;
           Ok (mkReStackTrie extNode (val st) (key st) (keyOffset st) (Some c' :: cs'))
       | None :: _ => RuntimePanic NilDereference
       | [] => RuntimePanic IndexOutOfRange
       end
     else insert_ext_split st diffidx fullkey value).
Proof. destruct st as [nt v k off cs]; simpl. intros ->. reflexivity. Qed.

Lemma insert_leafNode (st : ReStackTrie) (fullkey value : list Z) :
  nodeType st = leafNode -> insert st fullkey value = insert_leaf st fullkey value.
Proof. destruct st as [nt v k off cs]; simpl. intros ->. reflexivity. Qed.

Lemma insert_emptyNode (st : ReStackTrie) (fullkey value : list Z) :
  nodeType st = emptyNode -> insert st fullkey value = insert_empty st fullkey value.
Proof. destruct st as [nt v k off cs]; simpl. intros ->. reflexivity. Qed.






Lemma nibbles_of_keybytesToHex (key : list Z) :
  upto_nat (keybytesToHex key) (length (keybytesToHex key) - 1) = Ok (nibbles key).
Proof.
  unfold upto_nat, keybytesToHex. rewrite length_app. simpl.
  replace (length (nibbles key) + 1 - 1)%nat with (length (nibbles key)) by lia.
  destruct (Nat.ltb_spec (length (nibbles key) + 1) (length (nibbles key))); [lia|].
  rewrite firstn_app, Nat.sub_diag, firstn_all. simpl. rewrite app_nil_r. reflexivity.
Qed.

Lemma TryUpdate_eq (st : ReStackTrie) (key value : list Z) :
  TryUpdate st key value =
    if len value =? 0 then Panic "deletion not supported"
    else st' <- insert st (nibbles key) value ;; Ok (st', None).
Proof.
  unfold TryUpdate. rewrite nibbles_of_keybytesToHex. reflexivity.
Qed.


(** ** Loud failures *)




(** ** Arrays of slots *)

Lemma length_set_nth {A : Type} (a : list A) :
  forall n v, length (set_nth a n v) = length a.
Proof.
  induction a as [|x a IH]; intros [|n] v; simpl; try reflexivity.
  rewrite IH. reflexivity.
Qed.

Lemma nth_error_set_nth_eq {A : Type} (a : list A) :
  forall n v, (n < length a)%nat -> nth_error (set_nth a n v) n = Some v.
Proof.
  induction a as [|x a IH]; intros [|n] v; simpl; intros H; try lia; try reflexivity.
  apply IH. lia.
Qed.

Lemma nth_error_set_nth_neq {A : Type} (a : list A) :
  forall n i v, i <> n -> nth_error (set_nth a n v) i = nth_error a i.
Proof.
  induction a as [|x a IH]; intros [|n] [|i] v H; simpl; try reflexivity; try congruence.
  apply IH. congruence.
Qed.

Lemma store_nat_Ok {A : Type} (a a' : list A) (i : nat) (v : A) :
  store_nat a i v = Ok a' -> (i < length a)%nat /\ a' = set_nth a i v.
Proof.
  unfold store_nat. destruct (Nat.ltb_spec i (length a)) as [Hlt|_]; [|discriminate].
  intros E. injection E as <-. split; [exact Hlt | reflexivity].
Qed.

Lemma at_nat_Ok {A : Type} (a : list A) (i : nat) (x : A) :
  at_nat a i = Ok x <-> nth_error a i = Some x.
Proof.
  unfold at_nat. destruct (nth_error a i); split; intros E;
    try discriminate; injection E as <-; reflexivity.
Qed.

Lemma from_nat_Ok {A : Type} (a r : list A) (lo : nat) :
  from_nat a lo = Ok r -> (lo <= length a)%nat /\ r = skipn lo a.
Proof.
  unfold from_nat. destruct (Nat.ltb_spec (length a) lo) as [_|Hle]; [discriminate|].
  intros E. injection E as <-. split; [exact Hle | reflexivity].
Qed.

Lemma upto_nat_Ok {A : Type} (a r : list A) (hi : nat) :
  upto_nat a hi = Ok r -> (hi <= length a)%nat /\ r = firstn hi a.
Proof.
  unfold upto_nat. destruct (Nat.ltb_spec (length a) hi) as [_|Hle]; [discriminate|].
  intros E. injection E as <-. split; [exact Hle | reflexivity].
Qed.

Lemma nilChildren_length : length nilChildren = 16%nat.
Proof. reflexivity. Qed.

Lemma nilChildren_nth (i : nat) (slot : option ReStackTrie) :
  nth_error nilChildren i = Some slot -> slot = None.
Proof.
  intros H. apply nth_error_In in H. apply repeat_spec in H. exact H.
Qed.

Lemma NodeType_eqb_eq (a b : NodeType) : NodeType_eqb a b = true <-> a = b.
Proof. destruct a, b; simpl; split; intros H; try reflexivity; discriminate. Qed.

Lemma firstn_plus {A : Type} (l : list A) :
  forall n m, firstn (n + m) l = firstn n l ++ firstn m (skipn n l).
Proof.
  induction l as [|x l IH]; intros [|n] m; simpl; try reflexivity.
  - rewrite firstn_nil. reflexivity.
  - rewrite IH. reflexivity.
Qed.

Lemma firstn_succ_nth {A : Type} (l : list A) :
  forall n x, nth_error l n = Some x -> firstn (S n) l = firstn n l ++ [x].
Proof.
  induction l as [|y l IH]; intros [|n] x H; simpl in *; try discriminate.
  - injection H as ->. reflexivity.
  - rewrite (IH n x H). reflexivity.
Qed.

(** ** The diff index *)

Lemma getDiffIndex_loop_Ok (rest fullkey : list Z) :
  forall pos d0 d,
    getDiffIndex_loop rest fullkey pos d0 = Ok d ->
    exists m, d = (d0 + m)%nat /\ (m <= length rest)%nat /\
              firstn m rest = firstn m (skipn pos fullkey) /\
              ((m < length rest)%nat ->
               exists a b, nth_error rest m = Some a /\
                           nth_error fullkey (pos + m) = Some b /\ a <> b).
Proof.
  induction rest as [|x rest IH]; intros pos d0 d H; simpl in H.
  - injection H as <-. exists 0%nat. simpl. repeat split; try lia.
  - destruct (at_nat fullkey pos) as [b'| |] eqn:Hb; simpl in H; try discriminate.
    apply at_nat_Ok in Hb.
    destruct (Z.eqb_spec x b') as [->|Hne].
    + apply IH in H. destruct H as [m [-> [Hm [Hpre Hdiff]]]].
      exists (S m). split; [lia|]. split; [simpl; lia|]. split.
      * assert (Hs : skipn pos fullkey = b' :: skipn (S pos) fullkey).
        { clear -Hb. revert pos Hb. induction fullkey as [|y l IHl]; intros [|p] Hb;
            simpl in *; try discriminate.
          - injection Hb as ->. reflexivity.
          - apply IHl in Hb. rewrite Hb. destruct l; reflexivity. }
        rewrite Hs. simpl. rewrite Hpre. reflexivity.
      * intros Hlt. simpl in Hlt. destruct Hdiff as [a [b [Ha [Hb' Hab]]]]; [lia|].
        exists a, b. simpl. replace (pos + S m)%nat with (S pos + m)%nat by lia.
        repeat split; assumption.
    + injection H as <-. exists 0%nat. split; [lia|]. split; [simpl; lia|].
      split; [reflexivity|]. intros _. exists x, b'. simpl.
      rewrite Nat.add_0_r. repeat split; assumption.
Qed.

Lemma getDiffIndex_Ok (st : ReStackTrie) (fullkey : list Z) (d : nat) :
  getDiffIndex st fullkey = Ok d ->
  (d <= length (key st))%nat /\
  firstn d (key st) = firstn d (skipn (keyOffset st) fullkey) /\
  ((d < length (key st))%nat ->
   exists a b, nth_error (key st) d = Some a /\
               nth_error fullkey (keyOffset st + d) = Some b /\ a <> b).
Proof.
  intros H. apply getDiffIndex_loop_Ok in H.
  destruct H as [m [-> H]]. exact H.
Qed.

(** ** The order of the keys *)

Lemma nibbles_ltb_diverge :
  forall n a b x y,
    nibbles_ltb a b = true ->
    firstn n a = firstn n b ->
    nth_error a n = Some x -> nth_error b n = Some y -> x <= y.
Proof.
  induction n as [|n IH]; intros [|h a] [|h' b] x y Hlt Hpre Ha Hb;
    simpl in *; try discriminate.
  - injection Ha as ->. injection Hb as ->.
    apply orb_true_iff in Hlt. destruct Hlt as [Hlt | Heq].
    + apply Z.ltb_lt in Hlt. lia.
    + apply andb_true_iff in Heq. destruct Heq as [Heq _].
      apply Z.eqb_eq in Heq. lia.
  - injection Hpre as -> Hpre.
    rewrite Z.ltb_irrefl, Z.eqb_refl in Hlt. simpl in Hlt.
    eapply IH; eassumption.
Qed.

Lemma nibbles_nonneg (key : list Z) :
  Forall is_byte key -> Forall (fun n => 0 <= n) (nibbles key).
Proof.
  unfold nibbles. induction 1 as [|b key [Hb0 Hb1] _ IH]; simpl; [constructor|].
  constructor; [apply Z.div_pos; lia|].
  constructor; [apply Z.mod_pos_bound; lia | exact IH].
Qed.

(** ** Collapsing *)

Lemma collapse_Ok (n n' : ReStackTrie) :
  collapse n = Ok n' -> nodeType n' = hashedNode.
Proof.
  unfold collapse. destruct (hash n) as [[h n0]| |]; simpl; try discriminate.
  intros H. injection H as <-. reflexivity.
Qed.

(** The loop changes nothing when the slots it scans are nil or stubs. *)
Lemma collapse_left_unchanged :
  forall n cs,
    (n <= length cs)%nat ->
    (forall i slot, (i < n)%nat -> nth_error cs i = Some slot -> is_hashed slot) ->
    collapse_left cs n = Ok cs.
Proof.
  induction n as [|i IH]; intros cs Hlen Hleft; simpl; [reflexivity|].
  destruct (nth_error cs i) as [slot|] eqn:Hi.
  - apply at_nat_Ok in Hi as Hat. rewrite Hat. simpl.
    destruct slot as [c|].
    + assert (Hc : nodeType c = hashedNode) by (apply (Hleft i (Some c)); [lia | exact Hi]).
      apply NodeType_eqb_eq in Hc. rewrite Hc. reflexivity.
    + apply IH; [lia|]. intros j slot Hj. apply Hleft. lia.
  - apply nth_error_None in Hi. lia.
Qed.

(** The loop leaves only nil slots and stubs below [n] when the slots
    between the last descent index [a] and [n] are nil. *)
Lemma collapse_left_Ok :
  forall n cs cs' a,
    collapse_left cs n = Ok cs' ->
    (a < n)%nat -> (n <= length cs)%nat ->
    (forall i slot, (i < a)%nat -> nth_error cs i = Some slot -> is_hashed slot) ->
    (forall i slot, (a < i)%nat -> nth_error cs i = Some slot -> slot = None) ->
    length cs' = length cs /\
    (forall i, (n <= i)%nat -> nth_error cs' i = nth_error cs i) /\
    (forall i slot, (i < n)%nat -> nth_error cs' i = Some slot -> is_hashed slot).
Proof.
  induction n as [|i IH]; intros cs cs' a H Ha Hlen Hleft Hright; [lia|].
  simpl in H.
  destruct (at_nat cs i) as [slot| |] eqn:Hi; simpl in H; try discriminate.
  apply at_nat_Ok in Hi.
  destruct (Nat.eq_dec i a) as [->|Hne].
  - (* the slot of the last descent *)
    destruct slot as [c|].
    + destruct (NodeType_eqb (nodeType c) hashedNode) eqn:Hc.
      * injection H as <-. apply NodeType_eqb_eq in Hc.
        split; [reflexivity|]. split; [reflexivity|].
        intros j s Hj Hs. destruct (Nat.eq_dec j a) as [->|Hja].
        -- rewrite Hi in Hs. injection Hs as <-. exact Hc.
        -- apply (Hleft j); [lia | exact Hs].
      * destruct (collapse c) as [c'| |] eqn:Hcol; simpl in H; try discriminate.
        apply store_nat_Ok in H. destruct H as [Hlt ->].
        split; [apply length_set_nth|]. split.
        -- intros j Hj. apply nth_error_set_nth_neq. lia.
        -- intros j s Hj Hs. destruct (Nat.eq_dec j a) as [->|Hja].
           ++ rewrite nth_error_set_nth_eq in Hs by exact Hlt.
              injection Hs as <-. exact (collapse_Ok _ _ Hcol).
           ++ rewrite nth_error_set_nth_neq in Hs by exact Hja.
              apply (Hleft j); [lia | exact Hs].
    + rewrite collapse_left_unchanged in H; [|lia|exact Hleft].
      injection H as <-. split; [reflexivity|]. split; [reflexivity|].
      intros j s Hj Hs. destruct (Nat.eq_dec j a) as [->|Hja].
      * rewrite Hi in Hs. injection Hs as <-. exact I.
      * apply (Hleft j); [lia | exact Hs].
  - (* a slot on the right of the last descent: nil *)
    assert (Hnil : slot = None) by (apply (Hright i); [lia | exact Hi]).
    subst slot.
    destruct (IH cs cs' a H) as [Hl [Hsame Hhashed]]; try assumption; try lia.
    split; [exact Hl|]. split.
    + intros j Hj. apply Hsame. lia.
    + intros j s Hj Hs. destruct (Nat.eq_dec j i) as [->|Hji].
      * rewrite Hsame in Hs by lia. rewrite Hi in Hs. injection Hs as <-. exact I.
      * apply (Hhashed j); [lia | exact Hs].
Qed.

(** ** The fork *)

(** The branch that a split leaves: the old subtree as a stub under its
    nibble [a], the new leaf under the greater nibble [b]. *)
Lemma fork_spine (fullkey v k value : list Z) (off : nat) (a b : Z)
      (orig : ReStackTrie) (cs : list (option ReStackTrie)) :
  0 <= a < b ->
  (Z.to_nat b < 16)%nat ->
  nodeType orig = hashedNode ->
  nth_error fullkey off = Some b ->
  cs = set_nth (set_nth nilChildren (Z.to_nat a) (Some orig)) (Z.to_nat b)
         (Some (mkReStackTrie leafNode value (skipn (S off) fullkey) (S off) nilChildren)) ->
  spine fullkey off (mkReStackTrie branchNode v k off cs).
Proof.
  intros Hab Hb Horig Hnth ->.
  assert (Hlt : (Z.to_nat a < Z.to_nat b)%nat) by lia.
  eapply spine_branch with (b := b);
    cbn [nodeType keyOffset children key val]; try reflexivity; try eassumption.
  - rewrite !length_set_nth. reflexivity.
  - apply nth_error_set_nth_eq. rewrite length_set_nth, nilChildren_length. exact Hb.
  - intros i slot Hi Hs.
    rewrite nth_error_set_nth_neq in Hs by lia.
    destruct (Nat.eq_dec i (Z.to_nat a)) as [->|Hia].
    + rewrite nth_error_set_nth_eq in Hs by (rewrite nilChildren_length; lia).
      injection Hs as <-. exact Horig.
    + rewrite nth_error_set_nth_neq in Hs by exact Hia.
      rewrite (nilChildren_nth _ _ Hs). exact I.
  - intros i slot Hi Hs.
    rewrite !nth_error_set_nth_neq in Hs by lia.
    exact (nilChildren_nth _ _ Hs).
  - apply spine_leaf; reflexivity.
Qed.

(** ** Insertion keeps the spine *)

Ltac bind_ok H x E :=
  match type of H with
  | bind ?m _ = Ok _ =>
      destruct m as [x| |] eqn:E; cbn [bind] in H; [|discriminate H|discriminate H]
  end.

Lemma pOffset_eq (d off : nat) :
  (if (d =? 0)%nat then off else (off + d)%nat) = (off + d)%nat.
Proof. destruct d; simpl; lia. Qed.

Lemma pChildren_nil (d : nat) (cs : list (option ReStackTrie)) :
  cs = nilChildren \/ (exists c, cs = Some c :: repeat None 15) ->
  (if (d =? 0)%nat then store_nat cs 0 None else Ok nilChildren) = Ok nilChildren.
Proof.
  intros [-> | [c ->]]; destruct d; reflexivity.
Qed.

Lemma nth_nonneg (l : list Z) (n : nat) (x : Z) :
  Forall (fun n => 0 <= n) l -> nth_error l n = Some x -> 0 <= x.
Proof.
  intros Hl Hx. apply nth_error_In in Hx. rewrite Forall_forall in Hl. exact (Hl x Hx).
Qed.

(** Two keys that agree before the depth [off + d], where the stored one
    has [a] and the new, greater one has [b]. *)
Lemma diverge_lt (last fullkey : list Z) (off d : nat) (a b : Z) :
  Forall (fun n => 0 <= n) last ->
  nibbles_ltb last fullkey = true ->
  firstn off fullkey = firstn off last ->
  firstn d (skipn off last) = firstn d (skipn off fullkey) ->
  nth_error last (off + d) = Some a ->
  nth_error fullkey (off + d) = Some b ->
  a <> b ->
  0 <= a < b.
Proof.
  intros Hpos Hlt Hpre Hmid Ha Hb Hab.
  split; [eapply nth_nonneg; eassumption|].
  assert (a <= b); [|lia].
  apply (nibbles_ltb_diverge (off + d) last fullkey); try assumption.
  rewrite !firstn_plus, Hpre, Hmid. reflexivity.
Qed.

Lemma insert_leaf_spine (last fullkey value : list Z) (off : nat) (st st' : ReStackTrie) :
  nodeType st = leafNode ->
  keyOffset st = off ->
  key st = skipn off last ->
  children st = nilChildren ->
  Forall (fun n => 0 <= n) last ->
  nibbles_ltb last fullkey = true ->
  firstn off fullkey = firstn off last ->
  insert_leaf st fullkey value = Ok st' ->
  spine fullkey off st'.
Proof.
  intros Hnt Hoff Hkey Hch Hpos Hlt Hpre H.
  unfold insert_leaf in H. cbv zeta in H. rewrite Hoff, Hch in H.
  bind_ok H d Hd.
  destruct (Nat.leb_spec (length (key st)) d) as [|Hdlt]; [discriminate|].
  rewrite !pOffset_eq, (pChildren_nil d) in H by (left; reflexivity). cbn [bind] in H.
  bind_ok H a Ha. bind_ok H u Hu. bind_ok H origKey Hok. bind_ok H orig Horig.
  bind_ok H pc1 Hpc1. bind_ok H b Hb. bind_ok H u2 Hu2. bind_ok H newKey Hnk.
  bind_ok H pc2 Hpc2. bind_ok H stKey Hsk.
  apply getDiffIndex_Ok in Hd. rewrite Hoff in Hd.
  destruct Hd as [_ [Hmid Hdiff]]. destruct (Hdiff Hdlt) as [a' [b' [Ha' [Hb' Hab]]]].
  apply at_nat_Ok in Ha, Hb. rewrite Ha in Ha'. injection Ha' as <-.
  rewrite Nat.add_comm, Hb' in Hb. injection Hb as ->.
  rewrite Hkey, nth_error_skipn in Ha. rewrite Hkey in Hmid.
  assert (Hlt' : 0 <= a < b) by (eapply diverge_lt; eassumption).
  apply collapse_Ok in Horig.
  apply store_nat_Ok in Hpc1, Hpc2. destruct Hpc1 as [_ ->]. destruct Hpc2 as [Hb16 ->].
  rewrite length_set_nth, nilChildren_length in Hb16.
  apply from_nat_Ok in Hnk. destruct Hnk as [_ ->].
  apply upto_nat_Ok in Hsk. destruct Hsk as [Hdle ->].
  rewrite Nat.add_1_r in H.
  destruct (Nat.eqb_spec d 0) as [->|Hd0].
  - injection H as <-. rewrite Nat.add_0_r in *.
    eapply fork_spine; try eassumption; reflexivity.
  - bind_ok H stc Hstc. apply store_nat_Ok in Hstc. destruct Hstc as [_ ->].
    injection H as <-.
    assert (Hlen : length (firstn d (key st)) = d) by (rewrite length_firstn; lia).
    eapply spine_ext; cbn [nodeType keyOffset children key val]; try reflexivity.
    + rewrite Hlen, Hkey. exact Hmid.
    + rewrite Hlen. eapply fork_spine; try eassumption; reflexivity.
Qed.

Lemma insert_ext_split_spine (last fullkey value : list Z) (off d : nat)
      (st st' c : ReStackTrie) :
  nodeType st = extNode ->
  keyOffset st = off ->
  key st = firstn (length (key st)) (skipn off last) ->
  children st = Some c :: repeat None 15 ->
  Forall (fun n => 0 <= n) last ->
  nibbles_ltb last fullkey = true ->
  firstn off fullkey = firstn off last ->
  getDiffIndex st fullkey = Ok d ->
  d <> length (key st) ->
  insert_ext_split st d fullkey value = Ok st' ->
  spine fullkey off st'.
Proof.
  intros Hnt Hoff Hkey Hch Hpos Hlt Hpre Hd Hdne H.
  apply getDiffIndex_Ok in Hd. rewrite Hoff in Hd.
  destruct Hd as [Hdle [Hmid Hdiff]].
  assert (Hdlt : (d < length (key st))%nat) by lia.
  destruct (Hdiff Hdlt) as [a [b [Ha [Hb Hab]]]].
  unfold insert_ext_split in H. cbv zeta in H. rewrite Hoff, Hch in H.
  bind_ok H child0 Hc0. bind_ok H n Hn.
  rewrite !pOffset_eq, (pChildren_nil d) in H by (right; eexists; reflexivity).
  cbn [bind] in H.
  bind_ok H n' Hn'. bind_ok H oKey Hok. bind_ok H a' Ha'. bind_ok H b' Hb'.
  bind_ok H pc1 Hpc1. bind_ok H pc2 Hpc2. bind_ok H stKey Hsk.
  apply at_nat_Ok in Ha', Hb'. rewrite Ha in Ha'. injection Ha' as <-.
  rewrite Nat.add_comm, Hb in Hb'. injection Hb' as <-.
  assert (Ha2 : nth_error last (off + d) = Some a).
  { rewrite Hkey, nth_error_firstn in Ha.
    destruct (Nat.ltb_spec d (length (key st))); [|lia].
    rewrite nth_error_skipn in Ha. exact Ha. }
  assert (Hmid2 : firstn d (skipn off last) = firstn d (skipn off fullkey)).
  { rewrite <- Hmid. rewrite Hkey at 1. rewrite firstn_firstn.
    replace (Nat.min d (length (key st))) with d by lia. reflexivity. }
  assert (Hlt' : 0 <= a < b) by (eapply diverge_lt; eassumption).
  apply collapse_Ok in Hn'.
  apply store_nat_Ok in Hpc1, Hpc2. destruct Hpc1 as [_ ->]. destruct Hpc2 as [Hb16 ->].
  rewrite length_set_nth, nilChildren_length in Hb16.
  apply from_nat_Ok in Hok. destruct Hok as [_ ->].
  apply upto_nat_Ok in Hsk. destruct Hsk as [_ ->].
  rewrite Nat.add_1_r in H.
  destruct (Nat.eqb_spec d 0) as [->|Hd0].
  - injection H as <-. rewrite Nat.add_0_r in *.
    eapply fork_spine; try eassumption; reflexivity.
  - bind_ok H stc Hstc. apply store_nat_Ok in Hstc. destruct Hstc as [_ ->].
    injection H as <-.
    assert (Hlen : length (firstn d (key st)) = d) by (rewrite length_firstn; lia).
    eapply spine_ext; cbn [nodeType keyOffset children key val]; try reflexivity.
    + rewrite Hlen. exact Hmid.
    + rewrite Hlen. eapply fork_spine; try eassumption; reflexivity.
Qed.

(** An insertion of a greater key into a trie whose path spells the last
    key leaves a trie whose path spells the new key. *)
Lemma insert_spine (last fullkey value : list Z) :
  Forall (fun n => 0 <= n) last ->
  nibbles_ltb last fullkey = true ->
  forall off st,
    spine last off st ->
    forall st',
      firstn off fullkey = firstn off last ->
      insert st fullkey value = Ok st' ->
      spine fullkey off st'.
Proof.
  intros Hpos Hlt off st Hsp.
  induction Hsp as [off st Hnt Hoff Hkey Hch
                   | off st c Hnt Hoff Hkey Hch Hc IH
                   | off st c b Hnt Hoff Hb Hlen Hnth Hleft Hright Hc IH];
    intros st' Hpre H.
  - rewrite insert_leafNode in H by exact Hnt.
    eapply insert_leaf_spine; eassumption.
  - rewrite insert_ext in H by exact Hnt.
    bind_ok H d Hd.
    destruct (Nat.eqb_spec d (length (key st))) as [->|Hdne].
    + rewrite Hch in H. bind_ok H c' Hc'. injection H as <-.
      apply getDiffIndex_Ok in Hd. rewrite Hoff in Hd. destruct Hd as [_ [Hmid _]].
      rewrite firstn_all in Hmid.
      eapply spine_ext; cbn [nodeType keyOffset children key val];
        try reflexivity; try assumption.
      apply IH; [|first [exact Hc' | reflexivity]].
      rewrite !firstn_plus, Hpre, <- Hmid, <- Hkey. reflexivity.
    + eapply insert_ext_split_spine; eassumption.
  - rewrite insert_branch in H by exact Hnt. rewrite Hoff in H.
    bind_ok H b' Hb'. apply at_nat_Ok in Hb'.
    destruct (at_slot _ _ _) as [descend|] eqn:Hslot; [|discriminate].
    apply at_slot_Some in Hslot. destruct Hslot as [slot [Hnth' ->]].
    bind_ok H cs1 Hcs1. bind_ok H c' Hc'. bind_ok H cs2 Hcs2. injection H as <-.
    apply store_nat_Ok in Hcs2. destruct Hcs2 as [Hb16 ->].
    assert (Hb0 : 0 <= b) by (eapply nth_nonneg; eassumption).
    assert (Hle : b <= b').
    { apply (nibbles_ltb_diverge off last fullkey); try assumption.
      symmetry. exact Hpre. }
    assert (Hb'16 : (Z.to_nat b' < length (children st))%nat).
    { apply nth_error_Some. congruence. }
    destruct (Z.eq_dec b b') as [<-|Hne].
    + (* the same slot: the descent goes on *)
      rewrite Hnth in Hnth'. injection Hnth' as <-.
      rewrite collapse_left_unchanged in Hcs1 by (try lia; assumption).
      injection Hcs1 as <-.
      eapply spine_branch with (b := b) (c := c');
        cbn [nodeType keyOffset children key val]; try reflexivity; try assumption.
      * rewrite length_set_nth. exact Hlen.
      * apply nth_error_set_nth_eq. exact Hb'16.
      * intros i s Hi Hs. rewrite nth_error_set_nth_neq in Hs by lia.
        eapply Hleft; eassumption.
      * intros i s Hi Hs. rewrite nth_error_set_nth_neq in Hs by lia.
        eapply Hright; eassumption.
      * apply IH; [|first [exact Hc' | reflexivity]].
        rewrite (firstn_succ_nth _ _ _ Hb), (firstn_succ_nth _ _ _ Hb'), Hpre.
        reflexivity.
    + (* a slot further right: a new leaf, the old path is collapsed *)
      assert (Hlt' : (Z.to_nat b < Z.to_nat b')%nat) by lia.
      assert (Hnil : slot = None) by (eapply Hright; eassumption).
      subst slot.
      unfold insert_empty, newAt in Hc'. cbn [keyOffset with_keyOffset] in Hc'.
      bind_ok Hc' k' Hk'. apply from_nat_Ok in Hk'. destruct Hk' as [_ ->].
      injection Hc' as <-.
      destruct (collapse_left_Ok _ _ _ _ Hcs1 Hlt') as [Hl1 [Hsame Hhashed]];
        try assumption; try lia.
      eapply spine_branch with (b := b');
        cbn [nodeType keyOffset children key val]; try reflexivity; try assumption.
      * rewrite length_set_nth, Hl1. exact Hlen.
      * apply nth_error_set_nth_eq. exact Hb16.
      * intros i s Hi Hs. rewrite nth_error_set_nth_neq in Hs by lia.
        eapply Hhashed; eassumption.
      * intros i s Hi Hs. rewrite nth_error_set_nth_neq in Hs by lia.
        rewrite Hsame in Hs by lia. eapply Hright; [|exact Hs]. lia.
      * apply spine_leaf; cbn [nodeType keyOffset children key val NewReStackTrie];
          try reflexivity.
        -- lia.
        -- rewrite Nat.add_1_r. reflexivity.
Qed.

Lemma spine_not_hashed (last : list Z) (off : nat) (st : ReStackTrie) :
  spine last off st -> nodeType st <> hashedNode.
Proof. intros [] E; congruence. Qed.

Lemma spine_left_collapsed (last : list Z) (off : nat) (st : ReStackTrie) :
  spine last off st -> left_collapsed st.
Proof.
  induction 1 as [off st Hnt Hoff Hkey Hch
                 | off st c Hnt Hoff Hkey Hch Hc IH
                 | off st c b Hnt Hoff Hb Hlen Hnth Hleft Hright Hc IH].
  - apply lc_leaf; assumption.
  - eapply lc_ext; eassumption.
  - eapply lc_branch; try eassumption. eapply spine_not_hashed; eassumption.
Qed.

(** The first key makes the root a leaf that spells it. *)
Lemma first_update_spine (key value : list Z) (st : ReStackTrie) (err : error) :
  TryUpdate NewReStackTrie key value = Ok (st, err) -> spine (nibbles key) 0 st.
Proof.
  rewrite TryUpdate_eq. destruct (len value =? 0); [discriminate|].
  rewrite insert_emptyNode by reflexivity. unfold insert_empty.
  cbn [keyOffset NewReStackTrie from_nat length Nat.ltb Nat.leb skipn bind children].
  intros H. injection H as <- _. apply spine_leaf; reflexivity.
Qed.

Lemma updates_spine :
  forall kvs last st st',
    spine (nibbles last) 0 st ->
    Forall is_byte last ->
    Forall (fun kv => Forall is_byte (fst kv)) kvs ->
    ascending (last :: map fst kvs) = true ->
    updates st kvs = Ok st' ->
    exists last', spine (nibbles last') 0 st'.
Proof.
  induction kvs as [|[k v] kvs IH]; intros last st st' Hsp Hlast Hbytes Hasc H.
  - injection H as <-. exists last. exact Hsp.
  - cbn [updates] in H. rewrite TryUpdate_eq in H.
    destruct (len v =? 0); [discriminate|].
    destruct (insert st (nibbles k) v) as [st1| |] eqn:Hi; cbn [bind] in H;
      try discriminate.
    cbn [map fst ascending] in Hasc. apply andb_true_iff in Hasc.
    destruct Hasc as [Hlt Hasc]. inversion Hbytes as [|? ? Hk Hrest]; subst.
    apply (IH k st1 st'); try assumption.
    eapply insert_spine; try eassumption; [|reflexivity].
    apply nibbles_nonneg. exact Hlast.
Qed.

(** ** The left-collapsed invariant *)

(** The part of the invariant that the code keeps: after every completed
    [TryUpdate] of a run of keys in strictly ascending nibble order, every
    branch on the path that starts at the root has only nil slots and stubs
    on the left of its descent index, and only nil slots on its right.  The
    keys are byte strings; that the values are not empty follows from the
    calls having completed. *)
Theorem left_collapsed_after_updates (kvs : list (list Z * list Z)) (st : ReStackTrie) :
  kvs <> [] ->
  Forall (fun kv => Forall is_byte (fst kv)) kvs ->
  ascending (map fst kvs) = true ->
  updates NewReStackTrie kvs = Ok st ->
  left_collapsed st.
Proof.
  destruct kvs as [|[k v] kvs]; [congruence|]. intros _ Hbytes Hasc H.
  cbn [updates] in H.
  destruct (TryUpdate NewReStackTrie k v) as [[st1 err]| |] eqn:H1; cbn [bind] in H;
    try discriminate.
  apply first_update_spine in H1.
  inversion Hbytes as [|? ? Hk Hrest]; subst.
  destruct (updates_spine kvs k st1 st H1 Hk Hrest Hasc H) as [last' Hsp].
  eapply spine_left_collapsed. exact Hsp.
Qed.

Lemma left_collapsed_after_updates_witness :
  exists st, updates NewReStackTrie ascending_run = Ok st /\ left_collapsed st.
Proof.
  eexists. split; [vm_compute; reflexivity|].
  apply (left_collapsed_after_updates ascending_run).
  - discriminate.
  - repeat constructor; unfold is_byte; lia.
  - vm_compute. reflexivity.
  - vm_compute. reflexivity.
Defined.

(** ** What a stub still holds *)

(** What [hash] leaves in slot 0 of an extension: on the small path, which
    returns before [st.children[0] = nil], the child as its own [hash]
    left it; on the sponge path nil. *)
Lemma hash_ext_child (st st' c c' : ReStackTrie) (cs' : list (option ReStackTrie))
    (ch h : list Z) :
  nodeType st = extNode ->
  children st = Some c :: cs' ->
  hash c = Ok (ch, c') ->
  hash st = Ok (h, st') ->
  children st' =
    (if len (key st) / 2 + 1 + len ch <? 29 then Some c' else None) :: cs'.
Proof.
  destruct st as [nt v k off cs]. cbn [nodeType children key].
  intros -> -> Hc H. cbn [hash] in H. rewrite Hc in H. cbn [bind] in H.
  destruct (len k / 2 + 1 + len ch <? 29).
  - destruct (ext_small k ch); cbn [bind] in H; try discriminate.
    injection H as _ <-. reflexivity.
  - destruct (writeHPRLP k ch false); cbn [bind] in H; try discriminate.
    injection H as _ <-. reflexivity.
Qed.

(** Every position of a given tree: at each step the slot is one of the
    sixteen, and only the slots that hold a node lead further. *)
Ltac walk H pos :=
  let i := fresh "i" in
  destruct pos as [|i pos];
  [ cbn [node_at] in H; injection H as <-
  | repeat (destruct i as [|i]; cbn [node_at children nth_error] in H; try discriminate H);
    walk H pos ].

(** A node on the way to the tip is not a stub, a node off it is one. *)
Ltac on_or_off :=
  split;
  [ intros Hn; first [ eexists; reflexivity | exfalso; apply Hn; reflexivity ]
  | intros [rest E]; first [ discriminate E | discriminate ] ].

(** After the first two keys of [split_run] the nodes that are not stubs
    form one path: the extension, its branch and the second leaf. *)
Lemma one_path_before_the_split :
  exists st, updates NewReStackTrie shared_abcd = Ok st /\ one_path st.
Proof.
  eexists. split; [vm_compute; reflexivity|].
  exists [0; 1]%nat. intros pos n H. walk H pos; cbn [nodeType]; on_or_off.
Qed.

(** With values that take the split extension through the sponge, its stub
    holds nothing, and the nodes that are not stubs form one path. *)
Lemma sponge_path_releases_the_branch :
  exists st stub,
    updates NewReStackTrie split_run_long = Ok st /\
    node_at st [0; 11]%nat = Some stub /\
    nodeType stub = hashedNode /\
    children stub = nilChildren /\
    one_path st.
Proof.
  eexists. eexists. split; [vm_compute; reflexivity|].
  split; [vm_compute; reflexivity|].
  split; [reflexivity|]. split; [reflexivity|].
  exists [0; 12]%nat. intros pos n H. walk H pos; cbn [nodeType]; on_or_off.
Qed.

(** Claim C5 (left-collapsed invariant), at the keys 0xabcd00, 0xabcd10 and
    0xac0000, in ascending order and with values of one byte.  The three
    calls complete and every branch on the root's path has only stubs and
    nil slots on the left of its descent index.  But the stub in slot b of
    the branch under the root, which the split of the extension made, still
    holds the branch it stands for: [hash] left through the return of its
    small extension path, before [st.children[0] = nil].  That branch is
    resident, it is not a stub and it hangs under a stub, so the resident
    nodes that are not stubs do not form one path from the root. *)
Theorem stub_keeps_its_branch :
  exists st stub kept,
    ascending (map fst split_run) = true /\
    updates NewReStackTrie split_run = Ok st /\
    left_collapsed st /\
    node_at st [0; 11]%nat = Some stub /\
    nodeType stub = hashedNode /\
    node_at st [0; 11; 0]%nat = Some kept /\
    nodeType kept = branchNode /\
    ~ one_path st.
Proof.
  eexists. eexists. eexists.
  split; [vm_compute; reflexivity|].
  split; [vm_compute; reflexivity|].
  split.
  { apply (left_collapsed_after_updates split_run).
    - discriminate.
    - repeat constructor; unfold is_byte; lia.
    - vm_compute. reflexivity.
    - vm_compute. reflexivity. }
  split; [vm_compute; reflexivity|].
  split; [reflexivity|].
  split; [vm_compute; reflexivity|].
  split; [reflexivity|].
  intros [tip H].
  assert (Hkept := H [0; 11; 0]%nat _ eq_refl).
  assert (Hstub := H [0; 11]%nat _ eq_refl).
  cbn [nodeType] in Hkept, Hstub.
  destruct (proj1 Hkept) as [rest E]; [discriminate|].
  apply (proj2 Hstub); [|reflexivity].
  exists (0%nat :: rest). exact E.
Qed.
